(** * structural-rank-eta: the eta scanner of eta_scanner/eta_congruent_gpu.cu

    A shallow embedding of the CUDA program: the integer square root, the
    quadratic-residue filter, the per-thread kernel, the chunked dispatch
    loop and [main], followed by the properties of the specification.

    Conventions.  A [uint64_t] is a [Z] in [0, 2^64) and every operation
    that can leave that range is reduced with [u64]; an [int] modulus is
    a [Z].  The shared register [d_min_eta] is a [Z] threaded through the
    workers.  Host code that can abort through [CUDA_CHECK] or loop runs
    in the small [outcome] monad.  The [float] reading of the elapsed
    time is the rational number it denotes. *)

From Stdlib Require Import ZArith List Bool Lia Permutation String Znumtheory.
From Stdlib Require QArith.
Import ListNotations.

Local Open Scope Z_scope.

(** ** 64-bit unsigned arithmetic *)

Module U64.

Definition modulus : Z := 2 ^ 64.
Definition ULLONG_MAX : Z := 18446744073709551615.

(** Reduction of a mathematical integer to its [uint64_t] value. *)
Definition u64 (z : Z) : Z := z mod modulus.

Definition add (a b : Z) : Z := u64 (a + b).
Definition sub (a b : Z) : Z := u64 (a - b).
Definition mul (a b : Z) : Z := u64 (a * b).
Definition shr1 (a : Z) : Z := Z.shiftr a 1.

(** [(uint32_t) z] *)
Definition u32 (z : Z) : Z := z mod 2 ^ 32.

End U64.

Import U64.

(** ** The floating-point seed of [isqrt_uint64]

    [(double)n * 0.5 + 1.0] is evaluated in binary64 with round to
    nearest, ties to even.  [round53 z] is the nearest integer to [z >= 0]
    that has at most 53 significant bits.  The conversion [(double)n]
    is [round53 n]; halving is exact; the sum [m/2 + 1 = (m + 2)/2] is
    the rounding of [m + 2] counted in halves, and rounding to 53
    significant bits does not depend on the unit; the cast back to
    [uint64_t] truncates. *)

Definition round53 (z : Z) : Z :=
  if z <? 2 ^ 53 then z
  else
    let e := Z.log2 z - 52 in
    let q := Z.shiftr z e in
    let r := z mod 2 ^ e in
    let half := 2 ^ (e - 1) in
    if r <? half then q * 2 ^ e
    else if half <? r then (q + 1) * 2 ^ e
    else if Z.even q then q * 2 ^ e
    else (q + 1) * 2 ^ e.

Definition isqrt_seed (n : Z) : Z := round53 (round53 n + 2) / 2.

(** ** [isqrt_uint64] *)

Definition newton_step (n x : Z) : Z := shr1 (add x (n / x)).

Definition isqrt_uint64 (n : Z) : Z :=
  if n =? 0 then 0
  else
    let x := isqrt_seed n in
    let x := newton_step n x in
    let x := newton_step n x in
    let x := newton_step n x in
    if n / x <? x then sub x 1 else x.

(** ** [is_qr_mod] *)

Definition r23 : list Z := [1; 2; 3; 4; 6; 8; 9; 12; 13; 16; 18; 22].
Definition r29 : list Z := [1; 4; 5; 6; 7; 9; 13; 16; 20; 22; 23; 24; 25; 28].

(** The [for] loops over the tables [r] of the cases 23 and 29. *)
Fixpoint table_scan (val : Z) (r : list Z) : bool :=
  match r with
  | [] => false
  | x :: r' => if val =? x then true else table_scan val r'
  end.

(** [val %= mod] converts the [int] to [uint64_t] first.  The kernel
    calls the function with the moduli of [Q] only; a zero [mod] is
    undefined in C. *)
Definition is_qr_mod (val : Z) (mod_ : Z) : bool :=
  let val := val mod (u64 mod_) in
  if val =? 0 then true
  else if mod_ =? 3 then val =? 1
  else if mod_ =? 5 then (val =? 1) || (val =? 4)
  else if mod_ =? 7 then (val =? 1) || (val =? 2) || (val =? 4)
  else if mod_ =? 11 then
    (val =? 1) || (val =? 3) || (val =? 4) || (val =? 5) || (val =? 9)
  else if mod_ =? 13 then
    (val =? 1) || (val =? 3) || (val =? 4) || (val =? 9) || (val =? 10)
    || (val =? 12)
  else if mod_ =? 17 then
    (val =? 1) || (val =? 2) || (val =? 4) || (val =? 8) || (val =? 9)
    || (val =? 13) || (val =? 15) || (val =? 16)
  else if mod_ =? 19 then
    (val =? 1) || (val =? 4) || (val =? 5) || (val =? 6) || (val =? 7)
    || (val =? 9) || (val =? 11) || (val =? 16) || (val =? 17)
  else if mod_ =? 23 then table_scan val r23
  else if mod_ =? 29 then table_scan val r29
  else false.

(** ** [eta_congruent_kernel]

    One worker.  What a worker does is recorded as a [verdict]: the three
    early returns of lines 68, 69 and 73, the rejection by the residue
    filter at the first failing modulus, the failed square test, and the
    single write [atomicMin (d_min_eta, eta)]. *)

Definition ETA_CEILING : Z := 1518500249.

Definition Q : list Z := [3; 5; 7; 11; 13; 17; 19; 23; 29].

Inductive verdict : Type :=
| OutOfRange
| AboveCeiling
| WouldOverflow
| Rejected (q : Z)
| NotSquare
| Hit (eta : Z).

(** [uint64_t total = (T % q + d2 % q) % q] *)
Definition residue_total (T d2 q : Z) : Z :=
  add (T mod u64 q) (d2 mod u64 q) mod u64 q.

(** The loop over [Q] with its [break]: the first modulus that rejects. *)
Fixpoint first_reject (T d2 : Z) (qs : list Z) : option Z :=
  match qs with
  | [] => None
  | q :: qs' =>
      if is_qr_mod (residue_total T d2 q) q then first_reject T d2 qs'
      else Some q
  end.

(** Lines 69 to 92: the work on an index that passed the range guard. *)
Definition examine (T eta : Z) : verdict :=
  if ETA_CEILING <? eta then AboveCeiling
  else
    let d := sub (mul 2 eta) 1 in
    let d2 := mul d d in
    if sub ULLONG_MAX T <? d2 then WouldOverflow
    else
      match first_reject T d2 Q with
      | Some q => Rejected q
      | None =>
          let candidate := add T d2 in
          let y := isqrt_uint64 candidate in
          if mul y y =? candidate then Hit eta else NotSquare
      end.

Definition BLOCK_SIZE : Z := 256.

(** The index of the worker [(blockIdx.x, threadIdx.x)] *)
Definition worker_eta (n_start blockIdx threadIdx : Z) : Z :=
  add (add n_start (mul blockIdx BLOCK_SIZE)) threadIdx.

Definition eta_congruent_kernel
  (T n_start n_end : Z) (blockIdx threadIdx : Z) : verdict :=
  let eta := worker_eta n_start blockIdx threadIdx in
  if (n_end <? eta) || (eta =? 0) then OutOfRange
  else examine T eta.

(** [atomicMin]: the new content of the register. *)
Definition atomicMin (reg v : Z) : Z := Z.min reg v.

(** The effect of one worker on the register. *)
Definition run_worker (T n_start n_end : Z) (reg : Z) (w : Z * Z) : Z :=
  match eta_congruent_kernel T n_start n_end (fst w) (snd w) with
  | Hit eta => atomicMin reg eta
  | _ => reg
  end.

(** A kernel launch.  A worker touches shared memory once, in its
    [atomicMin]; an execution of the grid is therefore a sequence of
    these atomic operations in some order [sched] of the workers. *)
Definition launch (T n_start n_end : Z) (sched : list (Z * Z)) (reg : Z) : Z :=
  fold_left (run_worker T n_start n_end) sched reg.

Definition zrange (lo len : Z) : list Z :=
  map (fun i => lo + Z.of_nat i) (seq 0 (Z.to_nat len)).

(** All workers of a launch [<<<grid, BLOCK_SIZE>>>], block by block. *)
Definition grid_workers (grid : Z) : list (Z * Z) :=
  flat_map (fun b => map (fun t => (b, t)) (zrange 0 BLOCK_SIZE))
           (zrange 0 grid).

(** The per-index test of the kernel as a boolean. *)
Definition passes (T eta : Z) : bool :=
  match examine T eta with
  | Hit _ => true
  | _ => false
  end.

(** ** Host code: [CUDA_CHECK], [search_eta_chunked], [main] *)

(** The runtime calls wrapped in [CUDA_CHECK], by call site. *)
Inductive cuda_call : Type :=
| cudaMalloc
| cudaMemcpyHostToDevice
| cudaEventCreate_start
| cudaEventCreate_stop
| cudaEventRecord_start
| cudaGetLastError (n0 : Z)
| cudaDeviceSynchronize
| cudaEventRecord_stop
| cudaEventSynchronize
| cudaMemcpyDeviceToHost
| cudaEventElapsedTime
| cudaFree
| cudaEventDestroy_start
| cudaEventDestroy_stop.

(** A host computation returns, aborts the process in [CUDA_CHECK]
    ([exit (EXIT_FAILURE)]), or is still running when the fuel of the
    dispatch loop is spent. *)
Inductive outcome (A : Type) : Type :=
| Done (a : A)
| Fatal (site : cuda_call)
| Running.

Arguments Done {A} a.
Arguments Fatal {A} site.
Arguments Running {A}.

Definition bind {A B : Type} (m : outcome A) (k : A -> outcome B) : outcome B :=
  match m with
  | Done a => k a
  | Fatal site => Fatal site
  | Running => Running
  end.

Notation "x <- m ;; k" := (bind m (fun x => k))
  (at level 61, m at next level, right associativity).
Notation "m ;;; k" := (bind m (fun _ => k))
  (at level 61, right associativity).

Definition MAX_GRID_DIM : Z := 65535.
Definition CHUNK_SIZE : Z := mul BLOCK_SIZE MAX_GRID_DIM.

(** What the program writes: the two diagnostics on [stderr] and the
    report on [stdout].  A constructor stands for a [printf] and carries
    the values printed; [Banner] stands for the four [printf] of lines 146
    to 149, [Meta] for the four of lines 173 to 176, and [Throughput] for
    the [printf] of [(double)n_max / (ms * 1000.0)], of which it carries
    the two operands. *)
Inductive diagnostic : Type :=
| Usage (prog : string)
| NMaxTooSmall.

Inductive line : Type :=
| Banner
| EchoT (T Tmod4 : Z)
| EchoNMax (n_max : Z)
| CongruenceWarning
| Device
| ComputationTime (ms : QArith_base.Q)
| Throughput (n_max : Z) (ms : QArith_base.Q)
| NoneFound (n_max : Z)
| Found (eta : Z)
| Difference (pq : Z)
| Meta (T n_max : Z).

Record exit_state : Type := mkExit {
  exit_code : Z;
  stderr : list diagnostic;
  stdout : list line;
  searched : option Z
}.

(** [0.1f], the [float] nearest to one tenth: [13421773 * 2^-27]. *)
Definition TENTH_F : QArith_base.Q := QArith_base.Qmake 13421773 134217728.

(** [ms > 0.1f] *)
Definition above_tenth (ms : QArith_base.Q) : bool :=
  negb (QArith_base.Qle_bool ms TENTH_F).

(** The [printf] of lines 125 to 129. *)
Definition timing_lines (ms : QArith_base.Q) (n_max : Z) : list line :=
  ComputationTime ms
    :: (if above_tenth ms then [Throughput n_max ms] else []).

Section Host.

(** The runtime: which checked calls return [cudaSuccess], the order
    [schedule n0 grid] in which the device retires the workers of the
    launch of chunk [n0], and the time [elapsed_ms] that
    [cudaEventElapsedTime] stores in [ms] (a finite value). *)
Variable cuda_ok : cuda_call -> bool.
Variable schedule : Z -> Z -> list (Z * Z).
Variable elapsed_ms : QArith_base.Q.

Definition CUDA_CHECK (call : cuda_call) : outcome unit :=
  if cuda_ok call then Done tt else Fatal call.

(** The end of chunk [n0] and the grid size, lines 111 and 112. *)
Definition chunk_end (n_max n0 : Z) : Z :=
  if sub (add n0 CHUNK_SIZE) 1 <? n_max then sub (add n0 CHUNK_SIZE) 1
  else n_max.

Definition chunk_grid (n0 n1 : Z) : Z :=
  u32 (sub (add (add (sub n1 n0) 1) BLOCK_SIZE) 1 / BLOCK_SIZE).

(** The [for] loop of lines 110 to 115, from the counter [n0] and the
    register content [reg]. *)
Fixpoint dispatch (fuel : nat) (T n_max n0 reg : Z) : outcome Z :=
  match fuel with
  | O => Running
  | S fuel' =>
      if n0 <=? n_max then
        let n1 := chunk_end n_max n0 in
        let grid := chunk_grid n0 n1 in
        let reg' := launch T n0 n1 (schedule n0 grid) reg in
        CUDA_CHECK (cudaGetLastError n0) ;;;
        dispatch fuel' T n_max (add n0 CHUNK_SIZE) reg'
      else Done reg
  end.

(** [search_eta_chunked]: the value stored through [result], with the
    lines the function has printed on [stdout]. *)
Definition search_eta_chunked (fuel : nat) (T n_max : Z)
  : outcome (Z * list line) :=
  CUDA_CHECK cudaMalloc ;;;
  let init := ULLONG_MAX in
  CUDA_CHECK cudaMemcpyHostToDevice ;;;
  CUDA_CHECK cudaEventCreate_start ;;;
  CUDA_CHECK cudaEventCreate_stop ;;;
  CUDA_CHECK cudaEventRecord_start ;;;
  reg <- dispatch fuel T n_max 1 init ;;
  CUDA_CHECK cudaDeviceSynchronize ;;;
  CUDA_CHECK cudaEventRecord_stop ;;;
  CUDA_CHECK cudaEventSynchronize ;;;
  CUDA_CHECK cudaMemcpyDeviceToHost ;;;
  let result := reg in
  CUDA_CHECK cudaEventElapsedTime ;;;
  let ms := elapsed_ms in
  let printed := timing_lines ms n_max in
  CUDA_CHECK cudaFree ;;;
  CUDA_CHECK cudaEventDestroy_start ;;;
  CUDA_CHECK cudaEventDestroy_stop ;;;
  Done (result, printed).

(** *** [main] *)

(** [strtoull (s, NULL, 10)] of the C library. *)
Variable strtoull : string -> Z.

Definition main (fuel : nat) (argv : list string) : outcome exit_state :=
  let argc := Z.of_nat (List.length argv) in
  if negb (argc =? 3) then
    Done (mkExit 1 [Usage (nth 0 argv EmptyString)] [] None)
  else
    let T := strtoull (nth 1 argv EmptyString) in
    let n_max := strtoull (nth 2 argv EmptyString) in
    if n_max =? 0 then Done (mkExit 1 [NMaxTooSmall] [] None)
    else
      let head :=
        [Banner; EchoT T (T mod 4); EchoNMax n_max]
          ++ (if negb (T mod 4 =? 3) then [CongruenceWarning] else [])
          ++ [Device] in
      found <- search_eta_chunked fuel T n_max ;;
      let result := fst found in
      let timing := snd found in
      let verdict_lines :=
        if result =? ULLONG_MAX then [NoneFound n_max]
        else [Found result; Difference (sub (mul 4 result) 2)] in
      Done (mkExit 0 []
              (head ++ timing ++ verdict_lines ++ [Meta T n_max])
              (Some result)).

End Host.



(** ** The exhaustive scan of the specification *)

(** Indices [eta], [eta + 1], ... are tried in turn, [count] of them; the
    first one that passes is the least. *)
Fixpoint scan_from (T eta : Z) (count : nat) : Z :=
  match count with
  | O => ULLONG_MAX
  | S count' => if passes T eta then eta else scan_from T (eta + 1) count'
  end.

Definition sequential_scan (T n_max : Z) : Z :=
  scan_from T 1 (Z.to_nat n_max).

(** A chunk [lo .. hi] with the order in which its workers retire. *)
Record chunk : Type := mkChunk {
  lo : Z;
  hi : Z;
  order : list (Z * Z)
}.

Definition run_chunk (T : Z) (reg : Z) (c : chunk) : Z :=
  launch T (lo c) (hi c) (order c) reg.

Definition run_chunks (T : Z) (cs : list chunk) (reg : Z) : Z :=
  fold_left (run_chunk T) cs reg.

(** One worker for every index of the chunk. *)
Definition staffed (c : chunk) : Prop :=
  forall eta, lo c <= eta <= hi c ->
    exists w, In w (order c) /\ worker_eta (lo c) (fst w) (snd w) = eta.

(** [cs] cuts [first .. last] into consecutive non-empty chunks. *)
Inductive partition : Z -> Z -> list chunk -> Prop :=
| partition_one c :
    lo c <= hi c -> staffed c -> partition (lo c) (hi c) [c]
| partition_cons c last cs :
    lo c <= hi c -> staffed c ->
    partition (hi c + 1) last cs ->
    partition (lo c) last (c :: cs).

(** The residues of the squares, in the words of the specification:
    some [x] in [0, q) has [x * x mod q = v]. *)
Definition square_residue (v q : Z) : bool :=
  existsb (fun x => (x * x) mod q =? v) (zrange 0 q).

(** A reader of plain decimal numerals, an instance of [strtoull] on
    arguments made of digits. *)
Definition digit_value (c : Ascii.ascii) : Z := Z.of_N (Ascii.N_of_ascii c) - 48.

Fixpoint read_decimal (acc : Z) (s : string) : Z :=
  match s with
  | EmptyString => acc
  | String c s' =>
      if (0 <=? digit_value c) && (digit_value c <=? 9)
      then read_decimal (Z.min ULLONG_MAX (10 * acc + digit_value c)) s'
      else acc
  end.

(** A runtime in which every call succeeds and the workers retire in
    grid order, and an elapsed time of half a millisecond. *)
Definition all_succeed (call : cuda_call) : bool := true.
Definition in_grid_order (n0 grid : Z) : list (Z * Z) := grid_workers grid.
Definition half_ms : QArith_base.Q := QArith_base.Qmake 1 2.




(** [is_done o]: the computation returned. *)
Definition is_done {A : Type} (o : outcome A) : bool :=
  match o with
  | Done _ => true
  | _ => false
  end.

(** ** Predicates on the register *)

(** [settled T hi r]: [r] is the sentinel or an index of [1 .. hi] that
    passes the per-index test. *)
Definition settled (T hi r : Z) : Prop :=
  r = ULLONG_MAX \/ (1 <= r <= hi /\ passes T r = true).

(** [least_upto T k r]: no passing index of [1 .. k] is below [r]. *)
Definition least_upto (T k r : Z) : Prop :=
  forall eta, 1 <= eta <= k -> passes T eta = true -> r <= eta.

(** The passing indices below the counter are accounted for, or all of
    them are (after the counter wrapped). *)
Definition covered (T n_max n0 reg : Z) : Prop :=
  least_upto T (n0 - 1) reg \/ least_upto T n_max reg.

(** Every square is accepted: the tables contain all residues of
    squares.  Checked on the classes [0 .. q - 1]. *)
Definition squares_accepted (q : Z) : bool :=
  forallb (fun x => is_qr_mod (x * x) q) (zrange 0 q).

(** ** Notions used by the further properties *)

(** The worker went past the three guards: it ran the residue filter. *)
Definition evaluated (v : verdict) : bool :=
  match v with
  | Rejected _ | NotSquare | Hit _ => true
  | _ => false
  end.

(** The test [y * y == candidate] of lines 89 and 90. *)
Definition verify (candidate : Z) : bool :=
  mul (isqrt_uint64 candidate) (isqrt_uint64 candidate) =? candidate.

(** [n] is the square of an integer. *)
Definition perfect_square (n : Z) : bool := Z.sqrt n * Z.sqrt n =? n.

(** The number of chunk iterations after which the wrapped counter
    reaches [2^64 - 255], the largest value it takes. *)
Definition WRAP_PERIOD_STEPS : Z := 1 + 2 ^ 16 + 2 ^ 32 + 2 ^ 48.

(** The launches of the dispatch loop in turn: for each chunk its bounds
    [n0 .. n1] and the order of the workers of its grid. *)
Fixpoint loop_chunks (schedule : Z -> Z -> list (Z * Z)) (fuel : nat)
  (n_max n0 : Z) : list chunk :=
  match fuel with
  | O => []
  | S fuel' =>
      if n0 <=? n_max then
        let n1 := chunk_end n_max n0 in
        mkChunk n0 n1 (schedule n0 (chunk_grid n0 n1))
          :: loop_chunks schedule fuel' n_max (add n0 CHUNK_SIZE)
      else []
  end.

(** * Properties *)

(** ** Machine arithmetic *)

Lemma modulus_eq : modulus = 18446744073709551616.
Proof. reflexivity. Qed.

Lemma ULLONG_MAX_eq : ULLONG_MAX = modulus - 1.
Proof. reflexivity. Qed.

Lemma u64_range z : 0 <= u64 z < modulus.
Proof. unfold u64. apply Z.mod_pos_bound. reflexivity. Qed.

Lemma u64_small z : 0 <= z < modulus -> u64 z = z.
Proof. intros H. unfold u64. now apply Z.mod_small. Qed.

Lemma CHUNK_SIZE_eq : CHUNK_SIZE = 16776960.
Proof. reflexivity. Qed.

Lemma ETA_CEILING_eq : ETA_CEILING = 1518500249.
Proof. reflexivity. Qed.

Lemma BLOCK_SIZE_eq : BLOCK_SIZE = 256.
Proof. reflexivity. Qed.

(** ** One worker *)

Lemma examine_hit T eta e :
  examine T eta = Hit e -> e = eta /\ eta <= ETA_CEILING.
Proof.
  unfold examine.
  destruct (ETA_CEILING <? eta) eqn:Hc; [discriminate|].
  apply Z.ltb_ge in Hc.
  destruct (_ <? _); [discriminate|].
  destruct (first_reject _ _ _); [discriminate|].
  destruct (_ =? _); [|discriminate].
  intros [= <-]. now split.
Qed.

Lemma passes_hit T eta : passes T eta = true <-> examine T eta = Hit eta.
Proof.
  unfold passes. split.
  - destruct (examine T eta) eqn:E; try discriminate.
    apply examine_hit in E as [-> _]. reflexivity.
  - now intros ->.
Qed.

Lemma passes_ceiling T eta : passes T eta = true -> eta <= ETA_CEILING.
Proof. intros H. apply passes_hit in H. now apply examine_hit in H. Qed.

Lemma kernel_hit T n_start n_end b t e :
  eta_congruent_kernel T n_start n_end b t = Hit e ->
  e = worker_eta n_start b t /\ 1 <= e <= n_end /\ e <= ETA_CEILING
  /\ passes T e = true.
Proof.
  unfold eta_congruent_kernel.
  set (eta := worker_eta n_start b t).
  assert (0 <= eta < modulus) as Hr by apply u64_range.
  destruct (n_end <? eta) eqn:H1; [discriminate|].
  destruct (eta =? 0) eqn:H2; [discriminate|]. cbn [orb].
  apply Z.ltb_ge in H1. apply Z.eqb_neq in H2.
  intros E. pose proof (examine_hit _ _ _ E) as [-> Hc].
  repeat split; try lia. now apply passes_hit.
Qed.

(** A worker whose index lies in the chunk runs the per-index test. *)
Lemma kernel_in_range T n_start n_end b t :
  1 <= worker_eta n_start b t <= n_end ->
  eta_congruent_kernel T n_start n_end b t
  = examine T (worker_eta n_start b t).
Proof.
  intros H. unfold eta_congruent_kernel.
  replace (n_end <? _) with false by (symmetry; apply Z.ltb_ge; lia).
  replace (_ =? 0) with false by (symmetry; apply Z.eqb_neq; lia).
  reflexivity.
Qed.

Lemma run_worker_le T n_start n_end reg w :
  run_worker T n_start n_end reg w <= reg.
Proof.
  unfold run_worker, atomicMin.
  destruct (eta_congruent_kernel _ _ _ _ _); lia.
Qed.

Lemma run_worker_cases T n_start n_end reg w :
  run_worker T n_start n_end reg w = reg
  \/ exists eta,
       eta_congruent_kernel T n_start n_end (fst w) (snd w) = Hit eta
       /\ run_worker T n_start n_end reg w = eta /\ eta <= reg.
Proof.
  unfold run_worker, atomicMin.
  destruct (eta_congruent_kernel _ _ _ _ _) eqn:E; auto.
  destruct (Z.le_gt_cases reg eta).
  - left. lia.
  - right. exists eta. repeat split; lia.
Qed.

(** ** The register under a launch *)

Lemma settled_weaken T hi hi' r : hi <= hi' -> settled T hi r -> settled T hi' r.
Proof. intros Hh [->|[Hr Hp]]; [now left|right; split; [lia|assumption]]. Qed.

Lemma least_upto_le T k r r' : r' <= r -> least_upto T k r -> least_upto T k r'.
Proof. intros Hle H eta He Hp. specialize (H eta He Hp). lia. Qed.

Lemma least_upto_ceiling T k k' r :
  ETA_CEILING <= k -> least_upto T k r -> least_upto T k' r.
Proof.
  intros Hk H eta He Hp. apply H; [|assumption].
  apply passes_ceiling in Hp. lia.
Qed.

Lemma least_upto_shrink T k k' r :
  k' <= k -> least_upto T k r -> least_upto T k' r.
Proof. intros Hk H eta He Hp. apply H; [lia|assumption]. Qed.

Lemma launch_le T n_start n_end sched reg :
  launch T n_start n_end sched reg <= reg.
Proof.
  unfold launch. revert reg.
  induction sched as [|w sched IH]; intros reg; cbn [fold_left]; [lia|].
  specialize (IH (run_worker T n_start n_end reg w)).
  pose proof (run_worker_le T n_start n_end reg w). lia.
Qed.

Lemma launch_settled T n_start n_end hi sched reg :
  n_end <= hi ->
  settled T hi reg -> settled T hi (launch T n_start n_end sched reg).
Proof.
  intros Hhi. unfold launch. revert reg.
  induction sched as [|w sched IH]; intros reg Hs; cbn [fold_left]; [assumption|].
  apply IH.
  destruct (run_worker_cases T n_start n_end reg w) as [->|(eta & Hk & -> & _)];
    [assumption|].
  apply kernel_hit in Hk as (_ & Hr & _ & Hp). right. split; [lia|assumption].
Qed.

(** Whatever the order, the register ends below every hit of a worker
    that ran. *)
Lemma launch_below_hit T n_start n_end sched reg w eta :
  In w sched ->
  eta_congruent_kernel T n_start n_end (fst w) (snd w) = Hit eta ->
  launch T n_start n_end sched reg <= eta.
Proof.
  unfold launch. revert reg.
  induction sched as [|w' sched IH]; intros reg Hin Hk; [destruct Hin|].
  cbn [fold_left]. destruct Hin as [->|Hin].
  - pose proof (launch_le T n_start n_end sched (run_worker T n_start n_end reg w)) as Hle.
    unfold launch in Hle.
    assert (run_worker T n_start n_end reg w <= eta).
    { unfold run_worker, atomicMin. rewrite Hk. lia. }
    lia.
  - now apply IH.
Qed.

(** A chunk whose indices all have a worker leaves the register below
    every passing index of the chunk. *)
Lemma launch_covers T n_start n_end sched reg eta :
  (exists w, In w sched /\ worker_eta n_start (fst w) (snd w) = eta) ->
  1 <= eta <= n_end -> passes T eta = true ->
  launch T n_start n_end sched reg <= eta.
Proof.
  intros (w & Hin & Hw) Hr Hp.
  apply launch_below_hit with (w := w); [assumption|].
  rewrite kernel_in_range by (rewrite Hw; assumption).
  rewrite Hw. now apply passes_hit.
Qed.

(** The order of the workers does not matter. *)
Lemma run_worker_comm T n_start n_end reg w1 w2 :
  run_worker T n_start n_end (run_worker T n_start n_end reg w1) w2
  = run_worker T n_start n_end (run_worker T n_start n_end reg w2) w1.
Proof.
  unfold run_worker, atomicMin.
  destruct (eta_congruent_kernel T n_start n_end (fst w1) (snd w1));
    destruct (eta_congruent_kernel T n_start n_end (fst w2) (snd w2));
    try reflexivity; lia.
Qed.

Lemma launch_permutation T n_start n_end sched sched' :
  Permutation sched sched' ->
  forall reg,
    launch T n_start n_end sched reg = launch T n_start n_end sched' reg.
Proof.
  unfold launch.
  induction 1 as [|w l l' _ IH|w1 w2 l|l l' l'' _ IH1 _ IH2]; intros reg;
    cbn [fold_left].
  - reflexivity.
  - apply IH.
  - now rewrite run_worker_comm.
  - now rewrite IH1.
Qed.

(** ** The exhaustive scan returns the least passing index *)

Lemma scan_from_spec T count : forall eta0,
  let r := scan_from T eta0 count in
  (r = ULLONG_MAX
   /\ forall eta, eta0 <= eta < eta0 + Z.of_nat count -> passes T eta = false)
  \/ (eta0 <= r < eta0 + Z.of_nat count /\ passes T r = true
      /\ forall eta, eta0 <= eta < r -> passes T eta = false).
Proof.
  induction count as [|count IH]; intros eta0; cbn [scan_from].
  - left. split; [reflexivity|]. intros eta He. lia.
  - destruct (passes T eta0) eqn:Hp.
    + right. split; [lia|]. split; [assumption|]. intros eta He. lia.
    + destruct (IH (eta0 + 1)) as [[Hr Hall]|(Hr & Hpr & Hall)].
      * left. split; [assumption|]. intros eta He.
        destruct (Z.eq_dec eta eta0) as [->|]; [assumption|]. apply Hall. lia.
      * right. split; [lia|]. split; [assumption|]. intros eta He.
        destruct (Z.eq_dec eta eta0) as [->|]; [assumption|]. apply Hall. lia.
Qed.

Lemma sequential_scan_settled T n_max :
  0 <= n_max -> settled T n_max (sequential_scan T n_max).
Proof.
  intros Hn. unfold sequential_scan.
  destruct (scan_from_spec T (Z.to_nat n_max) 1) as [[Hr _]|(Hr & Hp & _)].
  - now left.
  - right. split; [lia|assumption].
Qed.

Lemma sequential_scan_least T n_max :
  0 <= n_max -> least_upto T n_max (sequential_scan T n_max).
Proof.
  intros Hn eta He Hp. unfold sequential_scan.
  destruct (scan_from_spec T (Z.to_nat n_max) 1) as [[_ Hall]|(_ & _ & Hall)].
  - rewrite Hall in Hp by lia. discriminate.
  - destruct (Z.le_gt_cases (scan_from T 1 (Z.to_nat n_max)) eta); [assumption|].
    rewrite Hall in Hp by lia. discriminate.
Qed.

(** The two properties determine the register. *)
Lemma settled_least_unique T hi r r' :
  settled T hi r -> least_upto T hi r ->
  settled T hi r' -> least_upto T hi r' -> r = r'.
Proof.
  intros [->|[Hr Hp]] Hl [->|[Hr' Hp']] Hl'; try reflexivity.
  - specialize (Hl r' Hr' Hp'). apply passes_ceiling in Hp'.
    rewrite ULLONG_MAX_eq, modulus_eq, ETA_CEILING_eq in *. lia.
  - specialize (Hl' r Hr Hp). apply passes_ceiling in Hp.
    rewrite ULLONG_MAX_eq, modulus_eq, ETA_CEILING_eq in *. lia.
  - specialize (Hl r' Hr' Hp'). specialize (Hl' r Hr Hp). lia.
Qed.

Lemma settled_least_scan T n_max r :
  0 <= n_max -> settled T n_max r -> least_upto T n_max r ->
  r = sequential_scan T n_max.
Proof.
  intros Hn Hs Hl.
  apply (settled_least_unique T n_max); try assumption.
  - now apply sequential_scan_settled.
  - now apply sequential_scan_least.
Qed.

(** ** The workers of a grid *)

Lemma in_zrange lo len x : In x (zrange lo len) <-> lo <= x < lo + len.
Proof.
  unfold zrange. rewrite in_map_iff. split.
  - intros (i & <- & Hi). apply in_seq in Hi. lia.
  - intros Hx. exists (Z.to_nat (x - lo)). split; [lia|].
    apply in_seq. lia.
Qed.

Lemma in_grid_workers grid b t :
  In (b, t) (grid_workers grid) <-> 0 <= b < grid /\ 0 <= t < BLOCK_SIZE.
Proof.
  unfold grid_workers. rewrite in_flat_map. split.
  - intros (b' & Hb & Hin). apply in_map_iff in Hin as (t' & [= <- <-] & Ht).
    apply in_zrange in Hb, Ht. lia.
  - intros [Hb Ht]. exists b. split; [apply in_zrange; lia|].
    apply in_map_iff. exists t. split; [reflexivity|apply in_zrange; lia].
Qed.

Lemma grid_workers_cover grid n_start eta :
  0 <= n_start <= eta -> eta < modulus ->
  eta - n_start < grid * BLOCK_SIZE ->
  exists w, In w (grid_workers grid)
            /\ worker_eta n_start (fst w) (snd w) = eta.
Proof.
  intros Hs He Hg. rewrite BLOCK_SIZE_eq in Hg.
  exists ((eta - n_start) / 256, (eta - n_start) mod 256).
  pose proof (Z.div_mod (eta - n_start) 256 ltac:(lia)) as Hdm.
  pose proof (Z.mod_pos_bound (eta - n_start) 256 ltac:(lia)) as Hm.
  assert (0 <= (eta - n_start) / 256) as Hq by (apply Z.div_pos; lia).
  split.
  - apply in_grid_workers. rewrite BLOCK_SIZE_eq. split; [|lia].
    split; [assumption|]. apply Z.div_lt_upper_bound; lia.
  - cbn [fst snd]. unfold worker_eta, add, mul. rewrite BLOCK_SIZE_eq.
    rewrite (u64_small ((eta - n_start) / 256 * 256)) by lia.
    rewrite (u64_small (n_start + _)) by lia.
    rewrite u64_small by lia. lia.
Qed.

(** ** The dispatch loop *)

Lemma sub_add_1 a b : sub (add a b) 1 = u64 (a + b - 1).
Proof. unfold sub, add, u64. apply Zminus_mod_idemp_l. Qed.

Lemma chunk_end_le n_max n0 : chunk_end n_max n0 <= n_max.
Proof.
  unfold chunk_end. destruct (_ <? n_max) eqn:E; [|lia].
  apply Z.ltb_lt in E. lia.
Qed.

(** While the counter does not wrap, a chunk ends at the smaller of
    [n0 + CHUNK_SIZE - 1] and [n_max]. *)
Lemma chunk_end_no_wrap n_max n0 :
  0 <= n0 -> n0 + CHUNK_SIZE - 1 < modulus ->
  chunk_end n_max n0 = Z.min (n0 + CHUNK_SIZE - 1) n_max.
Proof.
  intros H0 Hw. unfold chunk_end. rewrite sub_add_1.
  rewrite u64_small by (rewrite CHUNK_SIZE_eq in *; lia).
  destruct (_ <? n_max) eqn:E; [apply Z.ltb_lt in E|apply Z.ltb_ge in E]; lia.
Qed.

(** The grid of a chunk of at most [CHUNK_SIZE] indices has a worker for
    each of them. *)
Lemma chunk_grid_enough n0 n1 :
  0 <= n0 <= n1 -> n1 < modulus -> n1 - n0 < CHUNK_SIZE ->
  n1 - n0 < chunk_grid n0 n1 * BLOCK_SIZE.
Proof.
  intros H0 H1 Hc. unfold chunk_grid, sub, add, u32.
  rewrite CHUNK_SIZE_eq in Hc. rewrite BLOCK_SIZE_eq.
  rewrite modulus_eq in H1.
  rewrite (u64_small (n1 - n0)) by (rewrite modulus_eq; lia).
  rewrite (u64_small (n1 - n0 + 1)) by (rewrite modulus_eq; lia).
  rewrite (u64_small (n1 - n0 + 1 + 256)) by (rewrite modulus_eq; lia).
  rewrite (u64_small (n1 - n0 + 1 + 256 - 1)) by (rewrite modulus_eq; lia).
  pose proof (Z.div_mod (n1 - n0 + 1 + 256 - 1) 256 ltac:(lia)) as Hdm.
  pose proof (Z.mod_pos_bound (n1 - n0 + 1 + 256 - 1) 256 ltac:(lia)) as Hm.
  assert ((n1 - n0 + 1 + 256 - 1) / 256 < 2 ^ 32) as Hlt
    by (apply Z.div_lt_upper_bound; lia).
  assert (0 <= (n1 - n0 + 1 + 256 - 1) / 256) as Hge
    by (apply Z.div_pos; lia).
  rewrite Z.mod_small by lia. lia.
Qed.

Section Dispatch.

Variable cuda_ok : cuda_call -> bool.
Variable schedule : Z -> Z -> list (Z * Z).
Variable elapsed_ms : QArith_base.Q.

(** The device runs every worker of the grid, in an order of its own. *)
Hypothesis schedule_perm :
  forall n0 grid, Permutation (schedule n0 grid) (grid_workers grid).

Variables T n_max : Z.
Hypothesis n_max_range : 0 <= n_max < modulus.

Lemma launch_chunk_least n0 reg :
  0 <= n0 <= n_max -> n0 + CHUNK_SIZE - 1 < modulus ->
  least_upto T (n0 - 1) reg ->
  let n1 := chunk_end n_max n0 in
  least_upto T n1 (launch T n0 n1 (schedule n0 (chunk_grid n0 n1)) reg).
Proof.
  intros H0 Hw Hlow n1 eta He Hp.
  pose proof CHUNK_SIZE_eq as HC. pose proof modulus_eq as HM.
  assert (n1 = Z.min (n0 + CHUNK_SIZE - 1) n_max) as Hn1
    by (apply chunk_end_no_wrap; lia).
  destruct (Z.lt_ge_cases eta n0) as [Hlt|Hge].
  - pose proof (launch_le T n0 n1 (schedule n0 (chunk_grid n0 n1)) reg).
    specialize (Hlow eta ltac:(lia) Hp). lia.
  - apply launch_covers; [|lia|assumption].
    destruct (grid_workers_cover (chunk_grid n0 n1) n0 eta) as (w & Hin & Hw');
      [lia|lia| |].
    + pose proof (chunk_grid_enough n0 n1 ltac:(lia) ltac:(lia) ltac:(lia)). lia.
    + exists w. split; [|assumption].
      eapply Permutation_in; [apply Permutation_sym, schedule_perm|assumption].
Qed.

Lemma dispatch_step n0 reg :
  0 <= n0 <= n_max -> settled T n_max reg -> covered T n_max n0 reg ->
  let n1 := chunk_end n_max n0 in
  let reg' := launch T n0 n1 (schedule n0 (chunk_grid n0 n1)) reg in
  settled T n_max reg' /\ covered T n_max (add n0 CHUNK_SIZE) reg'.
Proof.
  intros H0 Hs Hc n1 reg'.
  pose proof CHUNK_SIZE_eq as HC. pose proof modulus_eq as HM. split.
  - apply launch_settled; [apply chunk_end_le|assumption].
  - assert (reg' <= reg) as Hle by apply launch_le.
    destruct Hc as [Hlow|Hall]; [|right; now apply least_upto_le with reg].
    destruct (Z.lt_ge_cases (n0 + CHUNK_SIZE - 1) modulus) as [Hw|Hw].
    + pose proof (launch_chunk_least n0 reg H0 Hw Hlow) as Hl.
      fold n1 in Hl. fold reg' in Hl.
      assert (n1 = Z.min (n0 + CHUNK_SIZE - 1) n_max) as Hn1
        by (apply chunk_end_no_wrap; lia).
      destruct (Z.lt_ge_cases (n0 + CHUNK_SIZE - 1) n_max) as [Hlt|Hge].
      * left. unfold add. rewrite u64_small by lia.
        replace (n0 + CHUNK_SIZE - 1) with n1 by lia. assumption.
      * right. replace n_max with n1 by lia. assumption.
    + right. apply least_upto_le with reg; [assumption|].
      apply least_upto_ceiling with (k := n0 - 1); [|assumption].
      rewrite ETA_CEILING_eq. lia.
Qed.

Lemma covered_exit n0 reg :
  n_max < n0 -> covered T n_max n0 reg -> least_upto T n_max reg.
Proof.
  intros Hn [Hlow|Hall]; [|assumption].
  apply least_upto_shrink with (k := n0 - 1); [lia|assumption].
Qed.

(** Whenever the loop finishes, the register holds the result of the
    exhaustive scan. *)
Lemma dispatch_done fuel : forall n0 reg r,
  0 <= n0 -> settled T n_max reg -> covered T n_max n0 reg ->
  dispatch cuda_ok schedule fuel T n_max n0 reg = Done r ->
  settled T n_max r /\ least_upto T n_max r.
Proof.
  induction fuel as [|fuel IH]; intros n0 reg r H0 Hs Hc; cbn [dispatch];
    [discriminate|].
  destruct (n0 <=? n_max) eqn:Hle.
  - apply Z.leb_le in Hle.
    destruct (dispatch_step n0 reg ltac:(lia) Hs Hc) as [Hs' Hc'].
    unfold CUDA_CHECK. destruct (cuda_ok _); cbn [bind]; [|discriminate].
    apply IH; try assumption. apply u64_range.
  - apply Z.leb_gt in Hle. intros [= <-]. split; [assumption|].
    now apply covered_exit with n0.
Qed.

Lemma covered_init : covered T n_max 1 ULLONG_MAX.
Proof. left. intros eta He. lia. Qed.

Lemma settled_init : settled T n_max ULLONG_MAX.
Proof. now left. Qed.

(** Unfolding of the straight-line part of [search_eta_chunked]. *)
Lemma search_done_both fuel r out :
  search_eta_chunked cuda_ok schedule elapsed_ms fuel T n_max = Done (r, out) ->
  dispatch cuda_ok schedule fuel T n_max 1 ULLONG_MAX = Done r
  /\ out = timing_lines elapsed_ms n_max.
Proof.
  unfold search_eta_chunked, CUDA_CHECK.
  repeat (match goal with
          | |- context [cuda_ok ?c] =>
              lazymatch c with
              | cudaGetLastError _ => fail
              | _ => destruct (cuda_ok c); cbn [bind]; [|discriminate]
              end
          end).
  destruct (dispatch _ _ _ _ _ _ _) as [reg| |]; cbn [bind]; try discriminate.
  repeat (match goal with
          | |- context [cuda_ok ?c] =>
              destruct (cuda_ok c); cbn [bind]; [|discriminate]
          end).
  intros [= <- <-]. split; reflexivity.
Qed.

Lemma search_done fuel r out :
  search_eta_chunked cuda_ok schedule elapsed_ms fuel T n_max = Done (r, out) ->
  dispatch cuda_ok schedule fuel T n_max 1 ULLONG_MAX = Done r.
Proof. intros H. apply search_done_both in H. exact (proj1 H). Qed.

Lemma search_printed fuel r out :
  search_eta_chunked cuda_ok schedule elapsed_ms fuel T n_max = Done (r, out) ->
  out = timing_lines elapsed_ms n_max.
Proof. intros H. apply search_done_both in H. exact (proj2 H). Qed.

Lemma search_partial fuel r out :
  search_eta_chunked cuda_ok schedule elapsed_ms fuel T n_max = Done (r, out) ->
  r = sequential_scan T n_max.
Proof.
  intros H. apply search_done in H.
  apply dispatch_done in H as [Hs Hl];
    [|lia|apply settled_init|apply covered_init].
  apply settled_least_scan; [lia|assumption|assumption].
Qed.

(** With the counter away from the wrap, the loop finishes. *)
Hypothesis all_ok : forall call, cuda_ok call = true.

Lemma dispatch_finishes (k : nat) : forall n0 reg,
  0 <= n0 -> n_max < modulus - CHUNK_SIZE ->
  n_max + 1 - n0 <= Z.of_nat k * CHUNK_SIZE ->
  exists r, dispatch cuda_ok schedule (S k) T n_max n0 reg = Done r.
Proof.
  pose proof CHUNK_SIZE_eq as HC. pose proof modulus_eq as HM.
  induction k as [|k IH]; intros n0 reg H0 Hn Hk; cbn [dispatch].
  - replace (n0 <=? n_max) with false by (symmetry; apply Z.leb_gt; lia).
    now exists reg.
  - destruct (n0 <=? n_max) eqn:Hle; [|now exists reg].
    apply Z.leb_le in Hle.
    unfold CUDA_CHECK at 1. rewrite all_ok. cbn [bind].
    apply IH; [apply u64_range|assumption|].
    unfold add. rewrite u64_small by lia. lia.
Qed.

Lemma search_finishes :
  n_max < modulus - CHUNK_SIZE ->
  exists r,
    search_eta_chunked cuda_ok schedule elapsed_ms (S (Z.to_nat n_max)) T n_max
    = Done (r, timing_lines elapsed_ms n_max).
Proof.
  intros Hn. pose proof CHUNK_SIZE_eq as HC.
  destruct (dispatch_finishes (Z.to_nat n_max) 1 ULLONG_MAX) as [r Hr];
    [lia|assumption|lia|].
  exists r. unfold search_eta_chunked, CUDA_CHECK. rewrite !all_ok. cbn [bind].
  rewrite Hr. cbn [bind]. reflexivity.
Qed.

Lemma search_total :
  n_max < modulus - CHUNK_SIZE ->
  exists fuel,
    search_eta_chunked cuda_ok schedule elapsed_ms fuel T n_max
    = Done (sequential_scan T n_max, timing_lines elapsed_ms n_max).
Proof.
  intros Hn. destruct (search_finishes Hn) as [r Hr].
  exists (S (Z.to_nat n_max)). rewrite Hr. do 2 f_equal.
  now apply search_partial with (S (Z.to_nat n_max)) (timing_lines elapsed_ms n_max).
Qed.

End Dispatch.

(** ** Any partition into chunks *)

Lemma partition_bounds first last cs : partition first last cs -> first <= last.
Proof. induction 1; lia. Qed.

Lemma run_chunk_spec T c reg :
  1 <= lo c <= hi c -> staffed c ->
  settled T (lo c - 1) reg -> least_upto T (lo c - 1) reg ->
  settled T (hi c) (run_chunk T reg c) /\ least_upto T (hi c) (run_chunk T reg c).
Proof.
  intros Hc Hst Hs Hl. unfold run_chunk. split.
  - apply launch_settled; [lia|]. apply settled_weaken with (lo c - 1); [lia|assumption].
  - intros eta He Hp.
    destruct (Z.lt_ge_cases eta (lo c)) as [Hlt|Hge].
    + pose proof (launch_le T (lo c) (hi c) (order c) reg).
      specialize (Hl eta ltac:(lia) Hp). lia.
    + apply launch_covers; [apply Hst; lia|lia|assumption].
Qed.

Lemma run_chunks_spec T first last cs :
  partition first last cs ->
  forall reg, 1 <= first ->
    settled T (first - 1) reg -> least_upto T (first - 1) reg ->
    settled T last (run_chunks T cs reg)
    /\ least_upto T last (run_chunks T cs reg).
Proof.
  unfold run_chunks.
  induction 1 as [c Hc Hst|c last cs Hc Hst Hp IH]; intros reg H1 Hs Hl;
    cbn [fold_left].
  - now apply run_chunk_spec.
  - destruct (run_chunk_spec T c reg ltac:(lia) Hst Hs Hl) as [Hs' Hl'].
    apply IH; [lia| |]; now replace (hi c + 1 - 1) with (hi c) by lia.
Qed.

Lemma run_chunks_scan T n_max cs :
  partition 1 n_max cs ->
  run_chunks T cs ULLONG_MAX = sequential_scan T n_max.
Proof.
  intros Hp. pose proof (partition_bounds _ _ _ Hp) as Hb.
  destruct (run_chunks_spec T 1 n_max cs Hp ULLONG_MAX) as [Hs Hl];
    [lia|now left|intros eta He; lia|].
  apply settled_least_scan; [lia|assumption|assumption].
Qed.

(** The workers of one chunk may retire in any order. *)
Lemma run_chunk_order T reg c order' :
  Permutation (order c) order' ->
  run_chunk T reg c = run_chunk T reg (mkChunk (lo c) (hi c) order').
Proof. intros Hp. unfold run_chunk. cbn. now apply launch_permutation. Qed.

(** ** The guards of the kernel *)

(** Below the ceiling, [d] and [d * d] are computed without wrap. *)
Lemma odd_square_exact eta :
  1 <= eta <= ETA_CEILING ->
  sub (mul 2 eta) 1 = 2 * eta - 1
  /\ mul (sub (mul 2 eta) 1) (sub (mul 2 eta) 1) = (2 * eta - 1) ^ 2
  /\ (2 * eta - 1) ^ 2 < 2 ^ 63.
Proof.
  intros He. rewrite ETA_CEILING_eq in He.
  assert (sub (mul 2 eta) 1 = 2 * eta - 1) as Hd.
  { unfold sub, mul. rewrite (u64_small (2 * eta)) by (rewrite modulus_eq; lia).
    apply u64_small. rewrite modulus_eq. lia. }
  assert (0 <= (2 * eta - 1) * (2 * eta - 1) <= 3037000497 * 3037000497) as Hsq.
  { split; [apply Z.mul_nonneg_nonneg; lia|].
    apply Z.mul_le_mono_nonneg; lia. }
  rewrite Hd. replace ((2 * eta - 1) ^ 2) with ((2 * eta - 1) * (2 * eta - 1)) by ring.
  repeat split.
  - unfold mul. apply u64_small. rewrite modulus_eq. lia.
  - change (2 ^ 63) with 9223372036854775808. lia.
Qed.

Lemma examine_above_ceiling T eta :
  ETA_CEILING < eta -> examine T eta = AboveCeiling.
Proof.
  intros H. unfold examine.
  replace (ETA_CEILING <? eta) with true by (symmetry; apply Z.ltb_lt; lia).
  reflexivity.
Qed.

Lemma examine_would_overflow T eta :
  0 <= T < modulus -> 1 <= eta <= ETA_CEILING ->
  modulus <= T + (2 * eta - 1) ^ 2 ->
  examine T eta = WouldOverflow.
Proof.
  intros HT He Ho. unfold examine.
  replace (ETA_CEILING <? eta) with false by (symmetry; apply Z.ltb_ge; lia).
  destruct (odd_square_exact eta He) as (Hd & Hd2 & _).
  cbv zeta. rewrite Hd2.
  unfold sub at 1. rewrite u64_small by (rewrite ULLONG_MAX_eq; lia).
  replace (ULLONG_MAX - T <? _) with true
    by (symmetry; apply Z.ltb_lt; rewrite ULLONG_MAX_eq; lia).
  reflexivity.
Qed.

(** ** The residue filter *)

Lemma Q_cases q (P : Z -> Prop) :
  P 3 -> P 5 -> P 7 -> P 11 -> P 13 -> P 17 -> P 19 -> P 23 -> P 29 ->
  In q Q -> P q.
Proof.
  intros H3 H5 H7 H11 H13 H17 H19 H23 H29 Hq. unfold Q in Hq.
  repeat (destruct Hq as [<-|Hq]; [assumption|]). destruct Hq.
Qed.

Lemma Q_bounds q : In q Q -> 0 < q < 30 /\ u64 q = q.
Proof.
  apply (Q_cases q (fun q => 0 < q < 30 /\ u64 q = q));
    (split; [lia|reflexivity]).
Qed.

(** The filter reads its argument modulo the modulus only. *)
Lemma is_qr_mod_reduce v q : is_qr_mod v q = is_qr_mod (v mod u64 q) q.
Proof. unfold is_qr_mod. now rewrite Zmod_mod. Qed.

Lemma residue_total_eq T d2 q :
  In q Q -> 0 <= T -> 0 <= d2 -> residue_total T d2 q = (T + d2) mod q.
Proof.
  intros Hq HT Hd. destruct (Q_bounds q Hq) as [Hb Hu].
  unfold residue_total. rewrite Hu. unfold add.
  pose proof (Z.mod_pos_bound T q ltac:(lia)).
  pose proof (Z.mod_pos_bound d2 q ltac:(lia)).
  rewrite u64_small by (rewrite modulus_eq; lia).
  symmetry. apply Zplus_mod.
Qed.

Lemma squares_accepted_Q q : In q Q -> squares_accepted q = true.
Proof.
  apply (Q_cases q (fun q => squares_accepted q = true));
    vm_compute; reflexivity.
Qed.

Lemma is_qr_mod_square q k : In q Q -> is_qr_mod (k * k) q = true.
Proof.
  intros Hq. destruct (Q_bounds q Hq) as [Hb Hu].
  pose proof (squares_accepted_Q q Hq) as Hall.
  unfold squares_accepted in Hall. rewrite forallb_forall in Hall.
  pose proof (Z.mod_pos_bound k q ltac:(lia)) as Hk.
  specialize (Hall (k mod q) ltac:(apply in_zrange; lia)).
  rewrite is_qr_mod_reduce, Hu in Hall.
  rewrite is_qr_mod_reduce, Hu, Zmult_mod. exact Hall.
Qed.

Lemma first_reject_none T d2 qs :
  (forall q, In q qs -> is_qr_mod (residue_total T d2 q) q = true) ->
  first_reject T d2 qs = None.
Proof.
  induction qs as [|q qs IH]; intros H; cbn [first_reject]; [reflexivity|].
  rewrite H by now left. apply IH. intros q' Hq'. apply H. now right.
Qed.

(** ** Facts on the loop that hold for every runtime *)

Lemma dispatch_settled cuda_ok schedule T n_max fuel : forall n0 reg r,
  settled T n_max reg ->
  dispatch cuda_ok schedule fuel T n_max n0 reg = Done r ->
  settled T n_max r.
Proof.
  induction fuel as [|fuel IH]; intros n0 reg r Hs; cbn [dispatch];
    [discriminate|].
  destruct (n0 <=? n_max).
  - unfold CUDA_CHECK. destruct (cuda_ok _); cbn [bind]; [|discriminate].
    apply IH. apply launch_settled; [apply chunk_end_le|assumption].
  - now intros [= <-].
Qed.

Lemma dispatch_le cuda_ok schedule T n_max fuel : forall n0 reg r,
  dispatch cuda_ok schedule fuel T n_max n0 reg = Done r -> r <= reg.
Proof.
  induction fuel as [|fuel IH]; intros n0 reg r; cbn [dispatch];
    [discriminate|].
  destruct (n0 <=? n_max).
  - unfold CUDA_CHECK. destruct (cuda_ok _); cbn [bind]; [|discriminate].
    intros H. apply IH in H.
    pose proof (launch_le T n0 (chunk_end n_max n0)
                  (schedule n0 (chunk_grid n0 (chunk_end n_max n0))) reg).
    lia.
  - intros [= <-]. lia.
Qed.

(** With [n_max = ULLONG_MAX] the test [n0 <= n_max] holds for every
    value of the counter. *)
Lemma dispatch_never_exits cuda_ok schedule T fuel : forall n0 reg,
  0 <= n0 < modulus ->
  is_done (dispatch cuda_ok schedule fuel T ULLONG_MAX n0 reg) = false.
Proof.
  induction fuel as [|fuel IH]; intros n0 reg Hn; cbn [dispatch];
    [reflexivity|].
  replace (n0 <=? ULLONG_MAX) with true
    by (symmetry; apply Z.leb_le; rewrite ULLONG_MAX_eq; lia).
  unfold CUDA_CHECK. destruct (cuda_ok _); cbn [bind]; [|reflexivity].
  apply IH, u64_range.
Qed.

Lemma dispatch_keeps_running schedule T fuel : forall n0 reg,
  0 <= n0 < modulus ->
  dispatch all_succeed schedule fuel T ULLONG_MAX n0 reg = Running.
Proof.
  induction fuel as [|fuel IH]; intros n0 reg Hn; cbn [dispatch];
    [reflexivity|].
  replace (n0 <=? ULLONG_MAX) with true
    by (symmetry; apply Z.leb_le; rewrite ULLONG_MAX_eq; lia).
  cbn [CUDA_CHECK all_succeed bind]. apply IH, u64_range.
Qed.

Lemma bind_not_done {A B : Type} (m : outcome A) (k : A -> outcome B) :
  is_done m = false -> is_done (bind m k) = false.
Proof. destruct m; [discriminate|reflexivity|reflexivity]. Qed.

Lemma check_bind_not_done cuda_ok {B : Type} call (m : outcome B) :
  is_done m = false -> is_done (CUDA_CHECK cuda_ok call ;;; m) = false.
Proof.
  intros H. unfold CUDA_CHECK. destruct (cuda_ok call); cbn [bind];
    [assumption|reflexivity].
Qed.

(** ** Fatal exits and the scenario of the specification *)








Lemma search_3_10 schedule elapsed_ms fuel :
  (forall n0 grid, Permutation (schedule n0 grid) (grid_workers grid)) ->
  search_eta_chunked all_succeed schedule elapsed_ms (S (S fuel)) 3 10
  = Done (1, timing_lines elapsed_ms 10).
Proof.
  intros Hperm.
  assert (exists r,
             search_eta_chunked all_succeed schedule elapsed_ms (S (S fuel)) 3 10
             = Done (r, timing_lines elapsed_ms 10)) as [r Hr].
  { unfold search_eta_chunked. cbn [CUDA_CHECK all_succeed bind dispatch].
    change (1 <=? 10) with true. cbv iota.
    change (add 1 CHUNK_SIZE <=? 10) with false. cbv iota.
    cbn [bind]. eexists. reflexivity. }
  rewrite Hr. do 2 f_equal.
  apply search_partial in Hr; [|assumption|rewrite modulus_eq; lia].
  rewrite Hr. vm_compute. reflexivity.
Qed.

(** [main] with two arguments and a non-zero [n_max] is the search
    followed by the report. *)
Lemma main_other_case cuda_ok schedule elapsed_ms strtoull fuel argv :
  List.length argv = 3%nat ->
  strtoull (nth 2 argv EmptyString) <> 0 ->
  main cuda_ok schedule elapsed_ms strtoull fuel argv
  = (found <- search_eta_chunked cuda_ok schedule elapsed_ms fuel
               (strtoull (nth 1 argv EmptyString))
               (strtoull (nth 2 argv EmptyString)) ;;
     Done (mkExit 0 []
             (([Banner;
                EchoT (strtoull (nth 1 argv EmptyString))
                  (strtoull (nth 1 argv EmptyString) mod 4);
                EchoNMax (strtoull (nth 2 argv EmptyString))]
               ++ (if negb (strtoull (nth 1 argv EmptyString) mod 4 =? 3)
                   then [CongruenceWarning] else [])
               ++ [Device])
              ++ snd found
              ++ (if fst found =? ULLONG_MAX
                  then [NoneFound (strtoull (nth 2 argv EmptyString))]
                  else [Found (fst found);
                        Difference (sub (mul 4 (fst found)) 2)])
              ++ [Meta (strtoull (nth 1 argv EmptyString))
                    (strtoull (nth 2 argv EmptyString))])
             (Some (fst found)))).
Proof.
  intros Hlen Hnz. unfold main. rewrite Hlen.
  change (negb (Z.of_nat 3 =? 3)) with false. cbv iota.
  replace (strtoull (nth 2 argv EmptyString) =? 0) with false
    by (symmetry; apply Z.eqb_neq; assumption).
  reflexivity.
Qed.

(** * The claims of the specification *)

(** C1 (exact square verification).  The claim, that the three Newton
    steps and the correction compute the floor of the square root of every
    64-bit value so that [y * y == candidate] holds exactly for the perfect
    squares, fails in the code: the root is right only up to 119.  On
    [196 = 14 * 14] the function returns 15, the test [y * y == candidate]
    fails, and the index [eta = 1] of [T = 195] (candidate 196) is reported
    as no square; the scan of [T = 195] up to 100 finds nothing. *)
Theorem isqrt_three_steps_miss_squares :
  isqrt_seed 196 = 99
  /\ isqrt_uint64 196 = 15 /\ Z.sqrt 196 = 14
  /\ (mul (isqrt_uint64 196) (isqrt_uint64 196) =? 196) = false
  /\ 195 + (2 * 1 - 1) ^ 2 = 14 * 14
  /\ examine 195 1 = NotSquare
  /\ sequential_scan 195 100 = ULLONG_MAX
  /\ isqrt_uint64 169 = 14
  /\ forallb (fun n => isqrt_uint64 n =? Z.sqrt n) (zrange 0 120) = true.
Proof. repeat split; vm_compute; reflexivity. Qed.

(** C2 (residue tables).  The claim, that each table is exactly the set
    of residues of squares, fails in the code at one entry: the table of 23
    lists 22, and no [x] in [0, 23) has [x * x mod 23 = 22].  Every other
    pair [(v, q)] agrees.  The kernel reaches that entry, for instance with
    [T = 29099069] and [eta = 1]. *)
Theorem table_23_accepts_non_residue :
  is_qr_mod 22 23 = true
  /\ square_residue 22 23 = false
  /\ forallb (fun q =>
       forallb (fun v =>
         Bool.eqb (is_qr_mod v q) (square_residue v q)
         || ((q =? 23) && (v =? 22))) (zrange 0 q)) Q = true
  /\ first_reject 29099069 1 [3; 5; 7; 11; 13; 17; 19] = None
  /\ residue_total 29099069 1 23 = 22
  /\ first_reject 29099069 1 Q = None.
Proof. repeat split; vm_compute; reflexivity. Qed.

(** C3 (the chunked search against the exhaustive scan).  For every [T]
    and every [n_max >= 1], with the workers of every launch retired in any
    order: whenever the dispatch loop completes, the register holds the
    result of the exhaustive sequential scan, which is the least index of
    [1 .. n_max] passing the per-index test, or [ULLONG_MAX]; for
    [n_max] below [2^64 - CHUNK_SIZE] the loop does complete with that
    value; the register reaches the same value for every partition of
    [1 .. n_max] into consecutive chunks with one worker per index, the
    single chunk included; and a launch gives the same register for every
    order of its workers. *)
Theorem chunked_search_equals_sequential_scan
  (cuda_ok : cuda_call -> bool) (schedule : Z -> Z -> list (Z * Z))
  (elapsed_ms : QArith_base.Q)
  (T n_max : Z) :
  (forall n0 grid, Permutation (schedule n0 grid) (grid_workers grid)) ->
  1 <= n_max < modulus ->
  (forall fuel r out,
      search_eta_chunked cuda_ok schedule elapsed_ms fuel T n_max
      = Done (r, out) ->
      r = sequential_scan T n_max)
  /\ ((forall call, cuda_ok call = true) ->
      n_max < modulus - CHUNK_SIZE ->
      exists fuel,
        search_eta_chunked cuda_ok schedule elapsed_ms fuel T n_max
        = Done (sequential_scan T n_max, timing_lines elapsed_ms n_max))
  /\ (forall cs, partition 1 n_max cs ->
        run_chunks T cs ULLONG_MAX = sequential_scan T n_max)
  /\ (forall order, staffed (mkChunk 1 n_max order) ->
        launch T 1 n_max order ULLONG_MAX = sequential_scan T n_max)
  /\ (forall n_start n_end sched sched' reg,
        Permutation sched sched' ->
        launch T n_start n_end sched reg = launch T n_start n_end sched' reg)
  /\ settled T n_max (sequential_scan T n_max)
  /\ least_upto T n_max (sequential_scan T n_max).
Proof.
  intros Hperm Hn. repeat apply conj.
  - intros fuel r out.
    apply (search_partial cuda_ok schedule elapsed_ms Hperm T n_max
             ltac:(lia)).
  - intros Hok Hlt. apply search_total; try assumption. lia.
  - intros cs. apply run_chunks_scan.
  - intros order Hst.
    apply (run_chunks_scan T n_max [mkChunk 1 n_max order]).
    apply (partition_one (mkChunk 1 n_max order)); [cbn; lia|assumption].
  - intros n_start n_end sched sched' reg Hp. now apply launch_permutation.
  - apply sequential_scan_settled. lia.
  - apply sequential_scan_least. lia.
Qed.

Lemma chunked_search_equals_sequential_scan_witness :
  (forall n0 grid, Permutation (in_grid_order n0 grid) (grid_workers grid))
  /\ 1 <= 10 < modulus
  /\ exists fuel,
       search_eta_chunked all_succeed in_grid_order half_ms fuel 3 10
       = Done (sequential_scan 3 10, timing_lines half_ms 10).
Proof.
  assert (forall n0 grid,
             Permutation (in_grid_order n0 grid) (grid_workers grid)) as Hp
    by (intros n0 grid; apply Permutation_refl).
  assert (1 <= 10 < modulus) as Hn by (rewrite modulus_eq; lia).
  split; [exact Hp|]. split; [exact Hn|].
  destruct (chunked_search_equals_sequential_scan
              all_succeed in_grid_order half_ms 3 10 Hp Hn)
    as (_ & Htotal & _).
  apply Htotal; [intros call; reflexivity|].
  rewrite modulus_eq, CHUNK_SIZE_eq. lia.
Defined.

(** C4 (termination of the dispatch loop).  The claim, that the loop
    terminates for every [n_max] of the 64-bit range, fails in the code at
    [n_max = ULLONG_MAX]: the counter [n0] wraps around and [n0 <= n_max]
    holds for each of its values, so [search_eta_chunked] returns for no
    amount of fuel, whatever the runtime does; when every runtime call
    succeeds it is still running after any number of iterations. *)
Theorem dispatch_loop_never_exits_at_ULLONG_MAX
  (cuda_ok : cuda_call -> bool) (schedule : Z -> Z -> list (Z * Z))
  (elapsed_ms : QArith_base.Q)
  (fuel : nat) (T : Z) :
  is_done (search_eta_chunked cuda_ok schedule elapsed_ms fuel T ULLONG_MAX)
  = false
  /\ search_eta_chunked all_succeed schedule elapsed_ms fuel T ULLONG_MAX
     = Running.
Proof.
  split.
  - unfold search_eta_chunked.
    repeat apply check_bind_not_done.
    apply bind_not_done, dispatch_never_exits. rewrite modulus_eq. lia.
  - unfold search_eta_chunked. cbn [CUDA_CHECK all_succeed bind].
    rewrite dispatch_keeps_running by (rewrite modulus_eq; lia).
    reflexivity.
Qed.

(** C5 (overflow guard and safety ceiling).  A worker whose index lies
    above [ETA_CEILING], or for which [T + (2 * eta - 1)^2] does not fit in
    64 bits, returns at one of the three guards: it runs neither the filter
    nor the verification and leaves the register as it is.  The ceiling
    does not depend on the bounds of the chunk: an index above it that lies
    inside the chunk stops at the ceiling guard. *)
Theorem kernel_skips_unsafe_index (T n_start n_end b t reg : Z) :
  0 <= T < modulus ->
  ETA_CEILING < worker_eta n_start b t
  \/ modulus <= T + (2 * worker_eta n_start b t - 1) ^ 2 ->
  (eta_congruent_kernel T n_start n_end b t = OutOfRange
   \/ eta_congruent_kernel T n_start n_end b t = AboveCeiling
   \/ eta_congruent_kernel T n_start n_end b t = WouldOverflow)
  /\ run_worker T n_start n_end reg (b, t) = reg
  /\ (ETA_CEILING < worker_eta n_start b t <= n_end ->
      eta_congruent_kernel T n_start n_end b t = AboveCeiling).
Proof.
  intros HT Hskip.
  assert (eta_congruent_kernel T n_start n_end b t = OutOfRange
          \/ eta_congruent_kernel T n_start n_end b t = AboveCeiling
          \/ eta_congruent_kernel T n_start n_end b t = WouldOverflow) as Hv.
  { unfold eta_congruent_kernel.
    set (eta := worker_eta n_start b t) in *.
    assert (0 <= eta < modulus) as Hr by apply u64_range.
    destruct (n_end <? eta) eqn:H1; [now left|].
    destruct (eta =? 0) eqn:H2; [now left|]. cbn [orb].
    apply Z.eqb_neq in H2. right.
    destruct (Z.lt_ge_cases ETA_CEILING eta) as [Hc|Hc].
    - left. now apply examine_above_ceiling.
    - right. apply examine_would_overflow; [assumption|lia|].
      destruct Hskip as [Hs|Hs]; [lia|assumption]. }
  split; [exact Hv|]. split.
  - unfold run_worker. cbn [fst snd].
    destruct Hv as [->|[->| ->]]; reflexivity.
  - intros [Hc Hin]. rewrite kernel_in_range.
    + now apply examine_above_ceiling.
    + rewrite ETA_CEILING_eq in Hc. lia.
Qed.

Lemma kernel_skips_unsafe_index_witness :
  0 <= 3 < modulus
  /\ ETA_CEILING < worker_eta 1518500250 0 0
  /\ eta_congruent_kernel 3 1518500250 2000000000 0 0 = AboveCeiling
  /\ run_worker 3 1518500250 2000000000 7 (0, 0) = 7.
Proof.
  assert (0 <= 3 < modulus) as HT by (rewrite modulus_eq; lia).
  assert (ETA_CEILING < worker_eta 1518500250 0 0) as Hc by reflexivity.
  destruct (kernel_skips_unsafe_index 3 1518500250 2000000000 0 0 7
              HT (or_introl Hc)) as (_ & Hreg & Hceil).
  split; [exact HT|]. split; [exact Hc|]. split; [|exact Hreg].
  apply Hceil. split; [exact Hc|]. vm_compute. discriminate.
Defined.

(** C6 (no false negative of the filter).  For an index in the
    evaluated range whose candidate [T + (2 * eta - 1)^2] is a perfect
    square, the test accepts at each of the nine moduli, the loop over [Q]
    rejects nowhere, and the worker goes on to the exact verification. *)
Theorem residue_filter_accepts_squares (T eta k : Z) :
  0 <= T < modulus ->
  1 <= eta <= ETA_CEILING ->
  T + (2 * eta - 1) ^ 2 < modulus ->
  T + (2 * eta - 1) ^ 2 = k * k ->
  (forall q, In q Q ->
     is_qr_mod
       (residue_total T (mul (sub (mul 2 eta) 1) (sub (mul 2 eta) 1)) q) q
     = true)
  /\ first_reject T (mul (sub (mul 2 eta) 1) (sub (mul 2 eta) 1)) Q = None
  /\ (examine T eta = Hit eta \/ examine T eta = NotSquare).
Proof.
  intros HT He Hfit Hsq.
  destruct (odd_square_exact eta He) as (Hd & Hd2 & Hb).
  assert (0 <= (2 * eta - 1) ^ 2) as Hpos by (apply Z.pow_even_nonneg; now exists 1).
  assert (forall q, In q Q ->
            is_qr_mod
              (residue_total T (mul (sub (mul 2 eta) 1) (sub (mul 2 eta) 1)) q) q
            = true) as Hall.
  { intros q Hq. rewrite Hd2.
    rewrite residue_total_eq by (try assumption; lia).
    destruct (Q_bounds q Hq) as [_ Hu].
    rewrite Hsq. rewrite <- Hu at 1. rewrite <- is_qr_mod_reduce.
    now apply is_qr_mod_square. }
  pose proof (first_reject_none _ _ Q Hall) as Hnone.
  split; [exact Hall|]. split; [exact Hnone|].
  assert (examine T eta
          = if mul (isqrt_uint64 (add T ((2 * eta - 1) ^ 2)))
                 (isqrt_uint64 (add T ((2 * eta - 1) ^ 2)))
               =? add T ((2 * eta - 1) ^ 2)
            then Hit eta else NotSquare) as Hex.
  { unfold examine.
    replace (ETA_CEILING <? eta) with false by (symmetry; apply Z.ltb_ge; lia).
    cbv zeta. rewrite Hnone. rewrite Hd2.
    replace (sub ULLONG_MAX T) with (ULLONG_MAX - T)
      by (unfold sub; rewrite u64_small; [reflexivity|rewrite ULLONG_MAX_eq; lia]).
    replace (ULLONG_MAX - T <? _) with false
      by (symmetry; apply Z.ltb_ge; rewrite ULLONG_MAX_eq; lia).
    reflexivity. }
  rewrite Hex. destruct (_ =? _); [now left|now right].
Qed.

Lemma residue_filter_accepts_squares_witness :
  first_reject 3 (mul (sub (mul 2 1) 1) (sub (mul 2 1) 1)) Q = None
  /\ (examine 3 1 = Hit 1 \/ examine 3 1 = NotSquare).
Proof.
  apply (residue_filter_accepts_squares 3 1 2).
  - rewrite modulus_eq. lia.
  - rewrite ETA_CEILING_eq. lia.
  - rewrite modulus_eq. vm_compute. reflexivity.
  - reflexivity.
Defined.

(** C7 (the filter reads the candidate modulo q).  For [T + d2] within
    64 bits and [q] one of the nine moduli, the value
    [(T % q + d2 % q) % q] of the kernel is [(T + d2) mod q]; the verdict
    for [q] is that of [is_qr_mod] on the candidate [T + d2] itself; and
    [is_qr_mod (v, q)] depends on [v mod q] only. *)
Theorem residue_total_is_candidate_mod (T d2 q : Z) :
  0 <= T -> 0 <= d2 -> T + d2 < modulus -> In q Q ->
  residue_total T d2 q = (T + d2) mod q
  /\ is_qr_mod (residue_total T d2 q) q = is_qr_mod (add T d2) q
  /\ (forall v, is_qr_mod v q = is_qr_mod (v mod q) q)
  /\ (forall v v', v mod q = v' mod q -> is_qr_mod v q = is_qr_mod v' q).
Proof.
  intros HT Hd Hfit Hq. destruct (Q_bounds q Hq) as [Hb Hu].
  assert (forall v, is_qr_mod v q = is_qr_mod (v mod q) q) as Hred
    by (intros v; rewrite (is_qr_mod_reduce v q), Hu; reflexivity).
  repeat apply conj.
  - now apply residue_total_eq.
  - rewrite residue_total_eq by assumption.
    unfold add. rewrite u64_small by lia. symmetry. apply Hred.
  - exact Hred.
  - intros v v' Hvv. rewrite (Hred v), (Hred v'), Hvv. reflexivity.
Qed.

Lemma residue_total_is_candidate_mod_witness :
  residue_total 3 25 7 = (3 + 25) mod 7
  /\ is_qr_mod (residue_total 3 25 7) 7 = is_qr_mod (add 3 25) 7.
Proof.
  destruct (residue_total_is_candidate_mod 3 25 7) as (H1 & H2 & _).
  - lia.
  - lia.
  - rewrite modulus_eq. lia.
  - unfold Q. cbn. tauto.
  - split; assumption.
Defined.



(** C9 (scenario [T = 3], [n_max = 10]).  Index 1 gives [d = 1] and the
    candidate [4 = 2 * 2]; it passes the nine filters and the exact
    verification, so the search returns 1, whatever the order of the
    workers and the elapsed time, and [main] reports [eta = 1] and
    [|p - q| = 4 * 1 - 2 = 2] with exit code 0. *)
Theorem scenario_T3_nmax10
  (schedule : Z -> Z -> list (Z * Z)) (elapsed_ms : QArith_base.Q)
  (strtoull : string -> Z) (prog : string) (fuel : nat) :
  (forall n0 grid, Permutation (schedule n0 grid) (grid_workers grid)) ->
  strtoull "3"%string = 3 -> strtoull "10"%string = 10 ->
  (2 <= fuel)%nat ->
  search_eta_chunked all_succeed schedule elapsed_ms fuel 3 10
  = Done (1, timing_lines elapsed_ms 10)
  /\ main all_succeed schedule elapsed_ms strtoull fuel
       [prog; "3"; "10"]%string
     = Done (mkExit 0 []
               ([Banner; EchoT 3 3; EchoNMax 10; Device]
                  ++ timing_lines elapsed_ms 10
                  ++ [Found 1; Difference 2; Meta 3 10])
               (Some 1))
  /\ 3 + (2 * 1 - 1) ^ 2 = 2 * 2
  /\ first_reject 3 1 Q = None
  /\ isqrt_uint64 4 = 2
  /\ examine 3 1 = Hit 1
  /\ sub (mul 4 1) 2 = 2.
Proof.
  intros Hperm H3 H10 Hfuel.
  destruct fuel as [|[|fuel]]; [lia|lia|].
  pose proof (search_3_10 schedule elapsed_ms fuel Hperm) as Hs.
  split; [exact Hs|]. split.
  - unfold main. cbn [List.length nth]. rewrite H3, H10, Hs. reflexivity.
  - repeat split; vm_compute; reflexivity.
Qed.

Lemma scenario_T3_nmax10_witness :
  main all_succeed in_grid_order half_ms (read_decimal 0) 2
    ["eta_congruent_gpu"; "3"; "10"]%string
  = Done (mkExit 0 []
            [Banner; EchoT 3 3; EchoNMax 10; Device;
             ComputationTime half_ms; Throughput 10 half_ms;
             Found 1; Difference 2; Meta 3 10]
            (Some 1)).
Proof.
  apply (scenario_T3_nmax10 in_grid_order half_ms (read_decimal 0)
           "eta_congruent_gpu"%string 2).
  - intros n0 grid. apply Permutation_refl.
  - reflexivity.
  - reflexivity.
  - apply le_n.
Defined.

(** C10 (the register).  The register starts at [ULLONG_MAX]; a worker
    writes only through [atomicMin], and only an index [eta] with
    [1 <= eta <= min (n_end, ETA_CEILING)] that passed the verification; no
    worker, launch or run of the loop raises the register; the value read
    back is [ULLONG_MAX] or a passing index of [1 .. n_max] that is at most
    [ETA_CEILING], hence different from the sentinel. *)
Theorem register_invariant
  (cuda_ok : cuda_call -> bool) (schedule : Z -> Z -> list (Z * Z))
  (elapsed_ms : QArith_base.Q)
  (T n_max : Z) :
  (forall fuel r out,
      search_eta_chunked cuda_ok schedule elapsed_ms fuel T n_max
      = Done (r, out) ->
      dispatch cuda_ok schedule fuel T n_max 1 ULLONG_MAX = Done r)
  /\ (forall n_start n_end b t eta reg,
        eta_congruent_kernel T n_start n_end b t = Hit eta ->
        1 <= eta <= Z.min n_end ETA_CEILING
        /\ passes T eta = true
        /\ run_worker T n_start n_end reg (b, t) = atomicMin reg eta)
  /\ (forall n_start n_end reg w, run_worker T n_start n_end reg w <= reg)
  /\ (forall n_start n_end sched reg, launch T n_start n_end sched reg <= reg)
  /\ (forall fuel n0 reg r,
        dispatch cuda_ok schedule fuel T n_max n0 reg = Done r -> r <= reg)
  /\ (forall fuel r out,
        search_eta_chunked cuda_ok schedule elapsed_ms fuel T n_max
        = Done (r, out) ->
        r = ULLONG_MAX
        \/ (1 <= r <= Z.min n_max ETA_CEILING /\ passes T r = true
            /\ r < ULLONG_MAX))
  /\ ETA_CEILING < ULLONG_MAX.
Proof.
  repeat apply conj.
  - intros fuel r out. apply search_done.
  - intros n_start n_end b t eta reg Hk.
    pose proof (kernel_hit _ _ _ _ _ _ Hk) as (_ & Hr & Hc & Hp).
    split; [lia|]. split; [assumption|].
    unfold run_worker. cbn [fst snd]. rewrite Hk. reflexivity.
  - intros. apply run_worker_le.
  - intros. apply launch_le.
  - intros fuel n0 reg r. apply dispatch_le.
  - intros fuel r out Hs. apply search_done in Hs.
    apply dispatch_settled in Hs; [|now left].
    destruct Hs as [->|[Hr Hp]]; [now left|right].
    pose proof (passes_ceiling _ _ Hp) as Hc.
    split; [lia|]. split; [assumption|].
    rewrite ETA_CEILING_eq in Hc. rewrite ULLONG_MAX_eq, modulus_eq. lia.
  - reflexivity.
Qed.

(** * Further properties of the code *)

(** ** The reduction by [atomicMin] *)

Lemma run_worker_min T n_start n_end a b w :
  run_worker T n_start n_end (Z.min a b) w
  = Z.min a (run_worker T n_start n_end b w).
Proof.
  unfold run_worker, atomicMin.
  destruct (eta_congruent_kernel _ _ _ _ _); try reflexivity.
  now rewrite Z.min_assoc.
Qed.

Lemma launch_min T n_start n_end sched : forall a b,
  launch T n_start n_end sched (Z.min a b)
  = Z.min a (launch T n_start n_end sched b).
Proof.
  unfold launch.
  induction sched as [|w sched IH]; intros a b; cbn [fold_left]; [reflexivity|].
  now rewrite run_worker_min, IH.
Qed.

Lemma launch_as_min T n_start n_end sched reg reg' :
  reg' <= reg ->
  launch T n_start n_end sched reg'
  = Z.min reg' (launch T n_start n_end sched reg).
Proof.
  intros Hle. rewrite <- launch_min. now rewrite Z.min_l.
Qed.

Lemma run_chunk_comm T reg c1 c2 :
  run_chunk T (run_chunk T reg c1) c2 = run_chunk T (run_chunk T reg c2) c1.
Proof.
  unfold run_chunk.
  rewrite (launch_as_min T (lo c2) (hi c2) (order c2) reg) by apply launch_le.
  rewrite (launch_as_min T (lo c1) (hi c1) (order c1) reg
             (launch T (lo c2) (hi c2) (order c2) reg)) by apply launch_le.
  apply Z.min_comm.
Qed.

Lemma run_chunk_idem T reg c :
  run_chunk T (run_chunk T reg c) c = run_chunk T reg c.
Proof.
  unfold run_chunk.
  rewrite (launch_as_min T (lo c) (hi c) (order c) reg) by apply launch_le.
  apply Z.min_id.
Qed.

Lemma run_chunks_perm T cs cs' :
  Permutation cs cs' -> forall reg, run_chunks T cs reg = run_chunks T cs' reg.
Proof.
  unfold run_chunks.
  induction 1 as [|c l l' _ IH|c1 c2 l|l l' l'' _ IH1 _ IH2]; intros reg;
    cbn [fold_left].
  - reflexivity.
  - apply IH.
  - now rewrite run_chunk_comm.
  - now rewrite IH1.
Qed.

Lemma run_chunks_app T cs cs' reg :
  run_chunks T (cs ++ cs') reg = run_chunks T cs' (run_chunks T cs reg).
Proof. unfold run_chunks. apply fold_left_app. Qed.

Lemma run_chunks_le T cs : forall reg, run_chunks T cs reg <= reg.
Proof.
  unfold run_chunks.
  induction cs as [|c cs IH]; intros reg; cbn [fold_left]; [lia|].
  specialize (IH (run_chunk T reg c)).
  pose proof (launch_le T (lo c) (hi c) (order c) reg). unfold run_chunk in *.
  lia.
Qed.

Lemma run_chunks_min T cs : forall a b,
  run_chunks T cs (Z.min a b) = Z.min a (run_chunks T cs b).
Proof.
  unfold run_chunks.
  induction cs as [|c cs IH]; intros a b; cbn [fold_left]; [reflexivity|].
  unfold run_chunk at 2. rewrite launch_min. now rewrite IH.
Qed.

Lemma run_chunks_idem T cs reg :
  run_chunks T cs (run_chunks T cs reg) = run_chunks T cs reg.
Proof.
  pose proof (run_chunks_le T cs reg) as Hle.
  rewrite <- (Z.min_l _ _ Hle) at 1. rewrite run_chunks_min. apply Z.min_id.
Qed.

(** ** The launch configuration of a chunk *)

Lemma chunk_grid_value n0 n1 :
  0 <= n1 - n0 < CHUNK_SIZE ->
  chunk_grid n0 n1 = (n1 - n0 + 256) / 256.
Proof.
  intros Hc. pose proof CHUNK_SIZE_eq as HC. pose proof modulus_eq as HM.
  unfold chunk_grid, sub, add, u32. rewrite BLOCK_SIZE_eq.
  rewrite (u64_small (n1 - n0)) by lia.
  rewrite (u64_small (n1 - n0 + 1)) by lia.
  rewrite (u64_small (n1 - n0 + 1 + 256)) by lia.
  rewrite (u64_small (n1 - n0 + 1 + 256 - 1)) by lia.
  replace (n1 - n0 + 1 + 256 - 1) with (n1 - n0 + 256) by lia.
  apply Z.mod_small. split; [apply Z.div_pos; lia|].
  apply Z.div_lt_upper_bound; lia.
Qed.

(** When [n0 + CHUNK_SIZE - 1] wraps, the chunk ends at the wrapped
    value and the grid has all its 65535 blocks. *)
Lemma chunk_end_wrap n_max n0 :
  0 <= n0 <= n_max -> n_max < modulus -> modulus <= n0 + CHUNK_SIZE - 1 ->
  chunk_end n_max n0 = n0 + CHUNK_SIZE - 1 - modulus.
Proof.
  intros H0 Hn Hw. pose proof CHUNK_SIZE_eq as HC. pose proof modulus_eq as HM.
  unfold chunk_end. rewrite sub_add_1.
  assert (u64 (n0 + CHUNK_SIZE - 1) = n0 + CHUNK_SIZE - 1 - modulus) as ->.
  { unfold u64. symmetry. apply Z.mod_unique with (q := 1); lia. }
  replace (_ <? n_max) with true by (symmetry; apply Z.ltb_lt; lia).
  reflexivity.
Qed.

Lemma chunk_grid_wrap n0 n1 :
  0 <= n0 < modulus -> n1 = n0 + CHUNK_SIZE - 1 - modulus -> 0 <= n1 ->
  chunk_grid n0 n1 = MAX_GRID_DIM.
Proof.
  intros H0 -> H1. pose proof CHUNK_SIZE_eq as HC. pose proof modulus_eq as HM.
  unfold chunk_grid. unfold sub at 2.
  assert (u64 (n0 + CHUNK_SIZE - 1 - modulus - n0) = CHUNK_SIZE - 1) as ->.
  { unfold u64. symmetry. apply Z.mod_unique with (q := -1); lia. }
  rewrite HC. vm_compute. reflexivity.
Qed.

(** ** The counter of the dispatch loop *)

Lemma u64_add_l a b : u64 (u64 a + b) = u64 (a + b).
Proof. unfold u64. apply Zplus_mod_idemp_l. Qed.

(** The counter starts at 1 and moves by a multiple of 256. *)
Lemma counter_mod_256 n0 :
  n0 mod 256 = 1 -> add n0 CHUNK_SIZE mod 256 = 1.
Proof.
  intros H. unfold add, u64.
  rewrite Z.mod_mod_divide by (exists (2 ^ 56); reflexivity).
  rewrite CHUNK_SIZE_eq. change 16776960 with (65535 * 256).
  now rewrite Z_mod_plus_full.
Qed.

Lemma counter_below_top n0 :
  0 <= n0 < modulus -> n0 mod 256 = 1 -> n0 <= modulus - 255.
Proof.
  intros Hr Hm. rewrite modulus_eq in *.
  pose proof (Z.div_mod n0 256 ltac:(lia)) as Hd. lia.
Qed.

Lemma dispatch_never_exits_top cuda_ok schedule T n_max fuel : forall n0 reg,
  modulus - 255 <= n_max ->
  0 <= n0 < modulus -> n0 mod 256 = 1 ->
  is_done (dispatch cuda_ok schedule fuel T n_max n0 reg) = false.
Proof.
  induction fuel as [|fuel IH]; intros n0 reg Hn Hr Hm; cbn [dispatch];
    [reflexivity|].
  pose proof (counter_below_top n0 Hr Hm) as Hb.
  replace (n0 <=? n_max) with true by (symmetry; apply Z.leb_le; lia).
  unfold CUDA_CHECK. destruct (cuda_ok _); cbn [bind]; [|reflexivity].
  apply IH; [assumption|apply u64_range|now apply counter_mod_256].
Qed.

Section Termination.

Variable cuda_ok : cuda_call -> bool.
Variable schedule : Z -> Z -> list (Z * Z).
Variable elapsed_ms : QArith_base.Q.
Hypothesis all_ok : forall call, cuda_ok call = true.
Variables T n_max : Z.

(** A counter that is [j] steps away from [2^64 - 255] leaves the loop
    within [j + 1] iterations. *)
Lemma dispatch_reaches_top (j : nat) : forall n0 reg,
  n_max <= modulus - 256 -> 0 <= n0 < modulus ->
  u64 (n0 + Z.of_nat j * CHUNK_SIZE) = modulus - 255 ->
  exists r, dispatch cuda_ok schedule (S j) T n_max n0 reg = Done r.
Proof.
  induction j as [|j IH]; intros n0 reg Hn Hr Hj; cbn [dispatch].
  - destruct (n0 <=? n_max) eqn:Hle; [|now exists reg].
    apply Z.leb_le in Hle. exfalso.
    cbn [Z.of_nat] in Hj. rewrite Z.mul_0_l, Z.add_0_r in Hj.
    rewrite u64_small in Hj by assumption. lia.
  - destruct (n0 <=? n_max) eqn:Hle; [|now exists reg].
    unfold CUDA_CHECK at 1. rewrite all_ok. cbn [bind].
    apply IH; [assumption|apply u64_range|].
    unfold add. rewrite u64_add_l. rewrite <- Hj. f_equal.
    rewrite Nat2Z.inj_succ. lia.
Qed.

Lemma wrap_period_top :
  u64 (1 + Z.of_nat (Z.to_nat WRAP_PERIOD_STEPS) * CHUNK_SIZE) = modulus - 255.
Proof. rewrite Z2Nat.id by (vm_compute; discriminate). reflexivity. Qed.

Lemma dispatch_terminates reg :
  n_max <= modulus - 256 ->
  exists r,
    dispatch cuda_ok schedule (S (Z.to_nat WRAP_PERIOD_STEPS)) T n_max 1 reg
    = Done r.
Proof.
  intros Hn. apply dispatch_reaches_top;
    [assumption|rewrite modulus_eq; lia|apply wrap_period_top].
Qed.

Lemma search_terminates :
  n_max <= modulus - 256 ->
  exists r,
    search_eta_chunked cuda_ok schedule elapsed_ms
      (S (Z.to_nat WRAP_PERIOD_STEPS)) T n_max
    = Done (r, timing_lines elapsed_ms n_max).
Proof.
  intros Hn. destruct (dispatch_terminates ULLONG_MAX Hn) as [r Hr].
  exists r. unfold search_eta_chunked, CUDA_CHECK. rewrite !all_ok. cbn [bind].
  rewrite Hr. cbn [bind]. reflexivity.
Qed.

(** Away from the wrap the loop is still running as long as the fuel
    does not exceed the number of chunks. *)
Lemma dispatch_running (fuel : nat) : forall n0 reg,
  0 <= n0 -> n_max < modulus - CHUNK_SIZE ->
  n0 + Z.of_nat fuel * CHUNK_SIZE <= n_max + CHUNK_SIZE ->
  dispatch cuda_ok schedule fuel T n_max n0 reg = Running.
Proof.
  pose proof CHUNK_SIZE_eq as HC. pose proof modulus_eq as HM.
  induction fuel as [|fuel IH]; intros n0 reg H0 Hn Hf; cbn [dispatch];
    [reflexivity|].
  rewrite Nat2Z.inj_succ in Hf.
  replace (n0 <=? n_max) with true by (symmetry; apply Z.leb_le; lia).
  unfold CUDA_CHECK at 1. rewrite all_ok. cbn [bind].
  apply IH; [apply u64_range|assumption|].
  unfold add. rewrite u64_small by lia. lia.
Qed.

End Termination.

(** ** The seed and the Newton steps of [isqrt_uint64] *)

Lemma round53_exact z : z < 2 ^ 53 -> round53 z = z.
Proof.
  intros H. unfold round53.
  replace (z <? 2 ^ 53) with true by (symmetry; apply Z.ltb_lt; assumption).
  reflexivity.
Qed.

(** Below [2^65] the rounding moves a value by at most [2^11]. *)
Lemma round53_near z :
  0 <= z < 2 ^ 65 -> z - 2 ^ 11 <= round53 z <= z + 2 ^ 11.
Proof.
  intros [H0 H65].
  destruct (Z.lt_ge_cases z (2 ^ 53)) as [Hs|Hb].
  { rewrite round53_exact by assumption. lia. }
  unfold round53.
  replace (z <? 2 ^ 53) with false by (symmetry; apply Z.ltb_ge; assumption).
  assert (0 < z) as Hpos by lia.
  assert (53 <= Z.log2 z) as Hlo by (apply Z.log2_le_pow2; assumption).
  assert (Z.log2 z < 65) as Hhi by (apply Z.log2_lt_pow2; assumption).
  set (e := Z.log2 z - 52).
  assert (1 <= e <= 12) as He by (unfold e; lia).
  rewrite Z.shiftr_div_pow2 by lia.
  set (P := 2 ^ (e - 1)).
  assert (2 ^ e = 2 * P) as HM.
  { unfold P. rewrite <- Z.pow_succ_r by lia. f_equal. lia. }
  assert (0 < P) as HP0 by (apply Z.pow_pos_nonneg; lia).
  assert (P <= 2 ^ 11) as HP by (apply Z.pow_le_mono_r; lia).
  pose proof (Z.div_mod z (2 ^ e) ltac:(lia)) as Hdm.
  pose proof (Z.mod_pos_bound z (2 ^ e) ltac:(lia)) as Hr.
  rewrite (Z.mul_comm (2 ^ e)) in Hdm.
  rewrite Z.mul_add_distr_r, Z.mul_1_l.
  set (W := z / 2 ^ e * 2 ^ e) in *.
  set (r := z mod 2 ^ e) in *.
  destruct (r <? P) eqn:E1; [apply Z.ltb_lt in E1; lia|apply Z.ltb_ge in E1].
  destruct (P <? r) eqn:E2; [apply Z.ltb_lt in E2; lia|apply Z.ltb_ge in E2].
  destruct (Z.even _); lia.
Qed.

Lemma sqrt_below_2_32 n : 0 <= n < modulus -> 0 <= Z.sqrt n < 2 ^ 32.
Proof.
  intros Hn. pose proof (Z.sqrt_spec n ltac:(lia)) as Hs. cbv zeta in Hs.
  pose proof (Z.sqrt_nonneg n). rewrite modulus_eq in Hn.
  change (2 ^ 32) with 4294967296. nia.
Qed.

Lemma sqrt_pos n : 1 <= n -> 1 <= Z.sqrt n.
Proof. intros H. pose proof (Z.sqrt_pos n). lia. Qed.

Lemma isqrt_seed_small n :
  0 <= n -> n + 2 < 2 ^ 53 -> isqrt_seed n = n / 2 + 1.
Proof.
  intros H0 Hs. unfold isqrt_seed.
  rewrite (round53_exact n) by lia. rewrite round53_exact by assumption.
  replace (n + 2) with (n + 1 * 2) by lia. now rewrite Z.div_add.
Qed.

Lemma isqrt_seed_bounds n :
  1 <= n < modulus ->
  Z.sqrt n <= isqrt_seed n <= 2 ^ 63 + 2 ^ 12.
Proof.
  intros Hn. pose proof modulus_eq as HM.
  pose proof (sqrt_below_2_32 n ltac:(lia)) as Hs32.
  pose proof (Z.sqrt_spec n ltac:(lia)) as Hs. cbv zeta in Hs.
  destruct (Z.lt_ge_cases (n + 2) (2 ^ 53)) as [Hsmall|Hbig].
  - rewrite isqrt_seed_small by lia.
    change (2 ^ 53) with 9007199254740992 in Hsmall.
    change (2 ^ 63 + 2 ^ 12) with 9223372036854779904.
    pose proof (Z.div_mod n 2 ltac:(lia)) as Hd.
    pose proof (Z.mod_pos_bound n 2 ltac:(lia)) as Hm. nia.
  - unfold isqrt_seed.
    assert (0 <= n < 2 ^ 65) as Hn65
      by (change (2 ^ 65) with 36893488147419103232; lia).
    pose proof (round53_near n Hn65) as Hm.
    change (2 ^ 53) with 9007199254740992 in Hbig.
    change (2 ^ 11) with 2048 in Hm.
    assert (0 <= round53 n + 2 < 2 ^ 65) as Hz
      by (change (2 ^ 65) with 36893488147419103232; lia).
    pose proof (round53_near _ Hz) as Hr. change (2 ^ 11) with 2048 in Hr.
    change (2 ^ 32) with 4294967296 in Hs32.
    change (2 ^ 63 + 2 ^ 12) with 9223372036854779904.
    pose proof (Z.div_mod (round53 (round53 n + 2)) 2 ltac:(lia)) as Hd.
    pose proof (Z.mod_pos_bound (round53 (round53 n + 2)) 2 ltac:(lia)) as Hmod.
    lia.
Qed.

(** A Newton step from any [x >= 1] lands on or above the root. *)
Lemma newton_ge_sqrt n x :
  0 <= n -> 1 <= x -> Z.sqrt n <= (x + n / x) / 2.
Proof.
  intros Hn Hx.
  pose proof (Z.sqrt_spec n Hn) as Hs. cbv zeta in Hs.
  pose proof (Z.sqrt_nonneg n) as Hs0.
  pose proof (Z.div_mod n x ltac:(lia)) as Hd.
  pose proof (Z.mod_pos_bound n x ltac:(lia)) as Hm.
  assert (0 <= n / x) as Hq by (apply Z.div_pos; lia).
  apply Z.div_le_lower_bound; [lia|].
  destruct (Z.le_gt_cases (2 * Z.sqrt n) (x + n / x)) as [|Hlt]; [assumption|].
  exfalso.
  assert (n < x * (n / x + 1)) as Hn' by lia.
  assert (4 * (x * (n / x + 1)) <= (x + (n / x + 1)) * (x + (n / x + 1))) as Ham.
  { pose proof (Z.square_nonneg (x - (n / x + 1))). nia. }
  assert ((x + (n / x + 1)) * (x + (n / x + 1))
          <= (2 * Z.sqrt n) * (2 * Z.sqrt n)) as Hsq
    by (apply Z.mul_le_mono_nonneg; lia).
  nia.
Qed.

Lemma div_by_ge_sqrt n x :
  1 <= n -> Z.sqrt n <= x -> n / x <= Z.sqrt n + 2.
Proof.
  intros Hn Hx.
  pose proof (Z.sqrt_spec n ltac:(lia)) as Hs. cbv zeta in Hs.
  pose proof (sqrt_pos n Hn) as Hs1.
  apply Z.div_le_upper_bound; [lia|]. nia.
Qed.

Lemma shr1_half a : shr1 a = a / 2.
Proof. unfold shr1. now rewrite Z.shiftr_div_pow2 by lia. Qed.

Lemma newton_step_bounds n x :
  1 <= n < modulus ->
  Z.sqrt n <= x <= 2 ^ 63 + 2 ^ 12 ->
  x + n / x < modulus
  /\ newton_step n x = (x + n / x) / 2
  /\ Z.sqrt n <= newton_step n x
  /\ 2 * newton_step n x <= x + Z.sqrt n + 2
  /\ newton_step n x <= 2 ^ 63 + 2 ^ 12.
Proof.
  intros Hn Hx. pose proof modulus_eq as HM.
  pose proof (sqrt_below_2_32 n ltac:(lia)) as Hs32.
  pose proof (sqrt_pos n ltac:(lia)) as Hs1.
  pose proof (div_by_ge_sqrt n x ltac:(lia) ltac:(lia)) as Hq.
  assert (0 <= n / x) as Hq0 by (apply Z.div_pos; lia).
  change (2 ^ 32) with 4294967296 in Hs32.
  change (2 ^ 63 + 2 ^ 12) with 9223372036854779904 in *.
  assert (x + n / x < modulus) as Hsum by lia.
  assert (newton_step n x = (x + n / x) / 2) as Hstep.
  { unfold newton_step, add. rewrite u64_small by lia. apply shr1_half. }
  split; [assumption|]. split; [assumption|]. rewrite Hstep.
  pose proof (newton_ge_sqrt n x ltac:(lia) ltac:(lia)) as Hge.
  pose proof (Z.div_mod (x + n / x) 2 ltac:(lia)) as Hd.
  pose proof (Z.mod_pos_bound (x + n / x) 2 ltac:(lia)) as Hm.
  repeat split; lia.
Qed.

(** The three iterates of [isqrt_uint64 n]. *)
Lemma isqrt_iterates n :
  1 <= n < modulus ->
  exists x3,
    Z.sqrt n <= x3
    /\ 8 * x3 <= isqrt_seed n + 7 * (Z.sqrt n + 2)
    /\ x3 = newton_step n (newton_step n (newton_step n (isqrt_seed n)))
    /\ isqrt_uint64 n = (if n / x3 <? x3 then x3 - 1 else x3).
Proof.
  intros Hn. pose proof modulus_eq as HM.
  pose proof (isqrt_seed_bounds n Hn) as H0.
  pose proof (newton_step_bounds n _ Hn H0) as (_ & _ & L1 & U1 & B1).
  pose proof (newton_step_bounds n _ Hn (conj L1 B1)) as (_ & _ & L2 & U2 & B2).
  pose proof (newton_step_bounds n _ Hn (conj L2 B2)) as (_ & _ & L3 & U3 & B3).
  pose proof (sqrt_pos n ltac:(lia)) as Hs1.
  exists (newton_step n (newton_step n (newton_step n (isqrt_seed n)))).
  split; [assumption|]. split; [lia|]. split; [reflexivity|].
  unfold isqrt_uint64.
  replace (n =? 0) with false by (symmetry; apply Z.eqb_neq; lia).
  cbv zeta. destruct (_ <? _); [|reflexivity].
  unfold sub. apply u64_small.
  change (2 ^ 63 + 2 ^ 12) with 9223372036854779904 in B3. lia.
Qed.

Lemma isqrt_ge_sqrt n :
  0 <= n < modulus -> Z.sqrt n <= isqrt_uint64 n.
Proof.
  intros Hn. destruct (Z.eq_dec n 0) as [->|Hnz]; [vm_compute; discriminate|].
  destruct (isqrt_iterates n ltac:(lia)) as (x3 & L3 & _ & _ & ->).
  pose proof (Z.sqrt_spec n ltac:(lia)) as Hs. cbv zeta in Hs.
  pose proof (sqrt_pos n ltac:(lia)) as Hs1.
  destruct (n / x3 <? x3) eqn:E; [apply Z.ltb_lt in E|lia].
  destruct (Z.eq_dec x3 (Z.sqrt n)) as [Heq|]; [|lia].
  exfalso. rewrite Heq in E.
  assert (Z.sqrt n <= n / Z.sqrt n) by (apply Z.div_le_lower_bound; lia).
  lia.
Qed.

(** The result is the root exactly when its square does not exceed [n]. *)
Lemma isqrt_exact_iff n :
  0 <= n < modulus ->
  (isqrt_uint64 n = Z.sqrt n <-> isqrt_uint64 n * isqrt_uint64 n <= n).
Proof.
  intros Hn. pose proof (isqrt_ge_sqrt n Hn) as Hge.
  pose proof (Z.sqrt_spec n ltac:(lia)) as Hs. cbv zeta in Hs.
  pose proof (Z.sqrt_nonneg n) as Hs0.
  split.
  - intros ->. lia.
  - intros Hsq. nia.
Qed.

(** Without the correction missing its mark: the uncorrected branch
    returns the root itself. *)
Lemma isqrt_uncorrected_exact n x3 :
  1 <= n < modulus ->
  x3 = newton_step n (newton_step n (newton_step n (isqrt_seed n))) ->
  x3 <= n / x3 -> isqrt_uint64 n = Z.sqrt n.
Proof.
  intros Hn Hx Hle.
  destruct (isqrt_iterates n Hn) as (x3' & L3 & _ & Hx' & Hy).
  rewrite <- Hx in Hx'. subst x3'.
  replace (n / x3 <? x3) with false in Hy by (symmetry; apply Z.ltb_ge; lia).
  apply isqrt_exact_iff; [lia|]. rewrite Hy.
  pose proof (sqrt_pos n ltac:(lia)).
  pose proof (Z.mul_div_le n x3 ltac:(lia)). nia.
Qed.

Lemma isqrt_below_2_32 n :
  0 <= n < 2 ^ 35 -> 0 <= isqrt_uint64 n < 2 ^ 32.
Proof.
  intros Hn. change (2 ^ 35) with 34359738368 in Hn.
  change (2 ^ 32) with 4294967296.
  destruct (Z.eq_dec n 0) as [->|Hnz]; [vm_compute; split; [discriminate|reflexivity]|].
  assert (1 <= n < modulus) as Hn' by (rewrite modulus_eq; lia).
  destruct (isqrt_iterates n Hn') as (x3 & L3 & U3 & _ & ->).
  rewrite isqrt_seed_small in U3
    by (try lia; change (2 ^ 53) with 9007199254740992; lia).
  pose proof (sqrt_pos n ltac:(lia)) as Hs1.
  pose proof (Z.sqrt_spec n ltac:(lia)) as Hs. cbv zeta in Hs.
  assert (Z.sqrt n < 262144) as Hs18 by nia.
  pose proof (Z.div_mod n 2 ltac:(lia)) as Hd.
  pose proof (Z.mod_pos_bound n 2 ltac:(lia)) as Hm.
  destruct (_ <? _); lia.
Qed.

(** Below [2^35] the product [y * y] does not wrap, and an accepted
    candidate is the square of its root. *)
Lemma verify_sound n :
  0 <= n < 2 ^ 35 -> verify n = true ->
  isqrt_uint64 n = Z.sqrt n /\ perfect_square n = true.
Proof.
  intros Hn Hv. pose proof (isqrt_below_2_32 n Hn) as Hy.
  change (2 ^ 35) with 34359738368 in Hn.
  change (2 ^ 32) with 4294967296 in Hy.
  unfold verify in Hv. apply Z.eqb_eq in Hv.
  unfold mul in Hv. rewrite u64_small in Hv by (rewrite modulus_eq; nia).
  assert (isqrt_uint64 n = Z.sqrt n) as Heq
    by (apply isqrt_exact_iff; [rewrite modulus_eq; lia|lia]).
  split; [assumption|]. unfold perfect_square. rewrite <- Heq.
  now apply Z.eqb_eq.
Qed.

(** The candidates below 169, by evaluation. *)
Lemma verify_table :
  forallb (fun n => Bool.eqb (verify n) (perfect_square n)) (zrange 0 169)
  = true.
Proof. vm_compute. reflexivity. Qed.

Lemma verify_exact_below_169 n :
  0 <= n < 169 -> verify n = perfect_square n.
Proof.
  intros Hn. pose proof verify_table as Ht.
  rewrite forallb_forall in Ht.
  specialize (Ht n ltac:(apply in_zrange; lia)).
  now apply Bool.eqb_prop.
Qed.

Lemma isqrt_table :
  forallb (fun n => isqrt_uint64 n =? Z.sqrt n) (zrange 0 120) = true.
Proof. vm_compute. reflexivity. Qed.

Lemma isqrt_exact_below_120 n :
  0 <= n < 120 -> isqrt_uint64 n = Z.sqrt n.
Proof.
  intros Hn. pose proof isqrt_table as Ht.
  rewrite forallb_forall in Ht.
  specialize (Ht n ltac:(apply in_zrange; lia)).
  now apply Z.eqb_eq.
Qed.

(** ** How far the verification reaches *)

(** A Newton step at most halves its argument. *)
Lemma newton_step_halves n x :
  1 <= n < modulus -> Z.sqrt n <= x <= 2 ^ 63 + 2 ^ 12 ->
  x - 1 <= 2 * newton_step n x.
Proof.
  intros Hn Hx.
  pose proof (newton_step_bounds n x Hn Hx) as (_ & -> & _).
  pose proof (sqrt_pos n ltac:(lia)) as Hs1.
  assert (0 <= n / x) as Hq0 by (apply Z.div_pos; lia).
  pose proof (Z.div_mod (x + n / x) 2 ltac:(lia)) as Hd.
  pose proof (Z.mod_pos_bound (x + n / x) 2 ltac:(lia)) as Hm. lia.
Qed.

(** From 1024 on the third iterate is still at least two above the
    root, so the corrected result is above the root. *)
Lemma isqrt_above_sqrt n :
  1024 <= n < 2 ^ 35 -> Z.sqrt n < isqrt_uint64 n.
Proof.
  intros Hn. change (2 ^ 35) with 34359738368 in Hn.
  assert (1 <= n < modulus) as Hn' by (rewrite modulus_eq; lia).
  pose proof (isqrt_seed_bounds n Hn') as H0.
  pose proof (newton_step_bounds n _ Hn' H0) as (_ & _ & L1 & U1 & B1).
  pose proof (newton_step_bounds n _ Hn' (conj L1 B1)) as (_ & _ & L2 & U2 & B2).
  pose proof (newton_step_halves n _ Hn' H0) as D1.
  pose proof (newton_step_halves n _ Hn' (conj L1 B1)) as D2.
  pose proof (newton_step_halves n _ Hn' (conj L2 B2)) as D3.
  destruct (isqrt_iterates n Hn') as (x3 & L3 & _ & Hx3 & ->).
  rewrite <- Hx3 in D3.
  rewrite isqrt_seed_small in D1, D2, D3
    by (try lia; change (2 ^ 53) with 9007199254740992; lia).
  pose proof (Z.sqrt_spec n ltac:(lia)) as Hs. cbv zeta in Hs.
  pose proof (Z.sqrt_nonneg n) as Hs0.
  assert (32 <= Z.sqrt n) as Hs32 by nia.
  pose proof (Z.div_mod n 2 ltac:(lia)) as Hd.
  pose proof (Z.mod_pos_bound n 2 ltac:(lia)) as Hm.
  assert (Z.sqrt n + 2 <= x3) by nia.
  destruct (_ <? _); lia.
Qed.

Lemma verify_table_1024 :
  forallb (fun n => negb (verify n)) (zrange 169 855) = true.
Proof. vm_compute. reflexivity. Qed.

(** Below [2^35] the test [y * y == candidate] accepts the squares up
    to [144 = 12 * 12] and nothing else. *)
Lemma verify_below_2_35 n :
  0 <= n < 2 ^ 35 -> verify n = perfect_square n && (n <=? 144).
Proof.
  intros Hn.
  destruct (Z.lt_ge_cases n 169) as [Hlo|Hhi].
  - rewrite verify_exact_below_169 by lia.
    destruct (perfect_square n) eqn:Ep; [|reflexivity]. cbn [andb].
    symmetry. apply Z.leb_le.
    unfold perfect_square in Ep. apply Z.eqb_eq in Ep.
    pose proof (Z.sqrt_nonneg n) as Hs0.
    assert (Z.sqrt n <= 12) as Hs12 by nia.
    assert (Z.sqrt n * Z.sqrt n <= 12 * 12)
      by (apply Z.mul_le_mono_nonneg; lia).
    lia.
  - replace (n <=? 144) with false by (symmetry; apply Z.leb_gt; lia).
    rewrite andb_false_r.
    destruct (Z.lt_ge_cases n 1024) as [Hmid|Hbig].
    + pose proof verify_table_1024 as Ht. rewrite forallb_forall in Ht.
      specialize (Ht n ltac:(apply in_zrange; lia)).
      now apply negb_true_iff in Ht.
    + destruct (verify n) eqn:Ev; [|reflexivity]. exfalso.
      destruct (verify_sound n Hn Ev) as [Heq _].
      pose proof (isqrt_above_sqrt n ltac:(lia)). lia.
Qed.

(** The filter on a square, and the kernel past its guards. *)
Lemma first_reject_square T d2 k :
  0 <= T -> 0 <= d2 -> T + d2 = k * k -> first_reject T d2 Q = None.
Proof.
  intros HT Hd Hsq. apply first_reject_none. intros q Hq.
  rewrite residue_total_eq by assumption.
  destruct (Q_bounds q Hq) as [_ Hu].
  rewrite Hsq. rewrite <- Hu at 1. rewrite <- is_qr_mod_reduce.
  now apply is_qr_mod_square.
Qed.

Lemma examine_past_guards T eta :
  0 <= T < modulus -> 1 <= eta <= ETA_CEILING ->
  T + (2 * eta - 1) ^ 2 < modulus ->
  examine T eta
  = match first_reject T ((2 * eta - 1) ^ 2) Q with
    | Some q => Rejected q
    | None => if verify (T + (2 * eta - 1) ^ 2) then Hit eta else NotSquare
    end.
Proof.
  intros HT He Hfit.
  destruct (odd_square_exact eta He) as (Hd & Hd2 & Hb).
  assert (0 <= (2 * eta - 1) ^ 2) as Hpos
    by (apply Z.pow_even_nonneg; now exists 1).
  unfold examine.
  replace (ETA_CEILING <? eta) with false by (symmetry; apply Z.ltb_ge; lia).
  cbv zeta. rewrite Hd2.
  replace (sub ULLONG_MAX T) with (ULLONG_MAX - T)
    by (unfold sub; rewrite u64_small; [reflexivity|rewrite ULLONG_MAX_eq; lia]).
  replace (ULLONG_MAX - T <? _) with false
    by (symmetry; apply Z.ltb_ge; rewrite ULLONG_MAX_eq; lia).
  unfold verify, add. rewrite u64_small by lia. reflexivity.
Qed.

Lemma passes_below_2_35 T eta :
  0 <= T -> 1 <= eta -> T + (2 * eta - 1) ^ 2 < 2 ^ 35 ->
  passes T eta
  = perfect_square (T + (2 * eta - 1) ^ 2) && (T + (2 * eta - 1) ^ 2 <=? 144).
Proof.
  intros HT He Hfit.
  assert (0 <= (2 * eta - 1) ^ 2) as Hpos
    by (apply Z.pow_even_nonneg; now exists 1).
  assert (eta <= ETA_CEILING) as Hc.
  { rewrite ETA_CEILING_eq. change (2 ^ 35) with 34359738368 in Hfit.
    replace ((2 * eta - 1) ^ 2) with ((2 * eta - 1) * (2 * eta - 1)) in * by ring.
    nia. }
  assert (T + (2 * eta - 1) ^ 2 < modulus) as Hm
    by (rewrite modulus_eq; change (2 ^ 35) with 34359738368 in Hfit; lia).
  assert (0 <= T + (2 * eta - 1) ^ 2 < 2 ^ 35) as Hrange by lia.
  unfold passes. rewrite examine_past_guards by (try lia; rewrite modulus_eq in *; lia).
  rewrite <- verify_below_2_35 by assumption.
  destruct (verify (T + (2 * eta - 1) ^ 2)) eqn:Ev.
  - destruct (verify_sound _ Hrange Ev) as [_ Hp].
    unfold perfect_square in Hp. apply Z.eqb_eq in Hp.
    rewrite (first_reject_square T _ (Z.sqrt (T + (2 * eta - 1) ^ 2)))
      by (try lia; now symmetry).
    reflexivity.
  - destruct (first_reject _ _ _); reflexivity.
Qed.

(** ** The chunks of the dispatch loop *)

(** The loop is the run of its chunks. *)
Lemma dispatch_as_chunks cuda_ok schedule T n_max fuel : forall n0 reg r,
  dispatch cuda_ok schedule fuel T n_max n0 reg = Done r ->
  r = run_chunks T (loop_chunks schedule fuel n_max n0) reg.
Proof.
  induction fuel as [|fuel IH]; intros n0 reg r; cbn [dispatch loop_chunks];
    [discriminate|].
  destruct (n0 <=? n_max).
  - unfold CUDA_CHECK. destruct (cuda_ok _); cbn [bind]; [|discriminate].
    intros H. apply IH in H. exact H.
  - now intros [= <-].
Qed.

Lemma loop_chunks_past schedule fuel n_max n0 :
  n_max < n0 -> loop_chunks schedule fuel n_max n0 = [].
Proof.
  intros H. destruct fuel as [|fuel]; cbn [loop_chunks]; [reflexivity|].
  replace (n0 <=? n_max) with false by (symmetry; apply Z.leb_gt; lia).
  reflexivity.
Qed.

Lemma loop_chunk_staffed schedule n_max n0 :
  (forall n grid, Permutation (schedule n grid) (grid_workers grid)) ->
  0 <= n0 <= n_max -> n_max < modulus - CHUNK_SIZE ->
  staffed (mkChunk n0 (chunk_end n_max n0)
             (schedule n0 (chunk_grid n0 (chunk_end n_max n0)))).
Proof.
  intros Hperm H0 Hn eta He. cbn [lo hi order] in *.
  pose proof CHUNK_SIZE_eq as HC. pose proof modulus_eq as HM.
  rewrite chunk_end_no_wrap in * by lia.
  destruct (grid_workers_cover
              (chunk_grid n0 (Z.min (n0 + CHUNK_SIZE - 1) n_max)) n0 eta)
    as (w & Hin & Hw); [lia|lia| |].
  - pose proof (chunk_grid_enough n0 (Z.min (n0 + CHUNK_SIZE - 1) n_max)
                  ltac:(lia) ltac:(lia) ltac:(lia)). lia.
  - exists w. split; [|assumption].
    eapply Permutation_in; [apply Permutation_sym, Hperm|assumption].
Qed.

Lemma loop_chunks_partition schedule n_max (fuel : nat) : forall n0,
  (forall n grid, Permutation (schedule n grid) (grid_workers grid)) ->
  1 <= n0 <= n_max -> n_max < modulus - CHUNK_SIZE ->
  n_max + 1 - n0 <= Z.of_nat fuel * CHUNK_SIZE ->
  partition n0 n_max (loop_chunks schedule fuel n_max n0).
Proof.
  pose proof CHUNK_SIZE_eq as HC. pose proof modulus_eq as HM.
  induction fuel as [|fuel IH]; intros n0 Hperm H0 Hn Hf; [cbn in Hf; lia|].
  cbn [loop_chunks]. rewrite Nat2Z.inj_succ in Hf.
  replace (n0 <=? n_max) with true by (symmetry; apply Z.leb_le; lia).
  pose proof (loop_chunk_staffed schedule n_max n0 Hperm ltac:(lia) Hn) as Hst.
  assert (chunk_end n_max n0 = Z.min (n0 + CHUNK_SIZE - 1) n_max) as He
    by (apply chunk_end_no_wrap; lia).
  assert (add n0 CHUNK_SIZE = n0 + CHUNK_SIZE) as Ha
    by (unfold add; apply u64_small; lia).
  rewrite Ha.
  destruct (Z.lt_ge_cases (n0 + CHUNK_SIZE - 1) n_max) as [Hlt|Hge].
  - set (c := mkChunk n0 (chunk_end n_max n0)
                (schedule n0 (chunk_grid n0 (chunk_end n_max n0)))) in *.
    assert (hi c + 1 = n0 + CHUNK_SIZE) as Hhi by (cbn; lia).
    rewrite <- Hhi.
    apply (partition_cons c); [cbn; lia|assumption|].
    rewrite Hhi. apply IH; [assumption|lia|assumption|lia].
  - rewrite loop_chunks_past by lia.
    set (c := mkChunk n0 (chunk_end n_max n0)
                (schedule n0 (chunk_grid n0 (chunk_end n_max n0)))) in *.
    assert (hi c = n_max) as Hhi by (cbn; lia).
    rewrite <- Hhi at 1.
    apply (partition_one c); [cbn; lia|assumption].
Qed.

(** ** The result as [n_max] grows *)

Lemma settled_below_sentinel T hi r :
  hi < modulus -> settled T hi r -> r <= ULLONG_MAX.
Proof.
  intros Hh [->|[Hr _]]; [lia|]. rewrite ULLONG_MAX_eq. lia.
Qed.

Lemma scan_monotone T n n' :
  0 <= n <= n' -> n' < modulus ->
  sequential_scan T n' <= sequential_scan T n
  /\ (sequential_scan T n <> ULLONG_MAX ->
      sequential_scan T n' = sequential_scan T n)
  /\ (ETA_CEILING <= n -> sequential_scan T n' = sequential_scan T n).
Proof.
  intros Hn Hn'.
  pose proof ULLONG_MAX_eq as HU. pose proof modulus_eq as HM.
  pose proof ETA_CEILING_eq as HE.
  pose proof (sequential_scan_settled T n ltac:(lia)) as Hs.
  pose proof (sequential_scan_least T n ltac:(lia)) as Hl.
  pose proof (sequential_scan_settled T n' ltac:(lia)) as Hs'.
  pose proof (sequential_scan_least T n' ltac:(lia)) as Hl'.
  set (r := sequential_scan T n) in *. set (r' := sequential_scan T n') in *.
  assert (r <> ULLONG_MAX -> r' = r) as Hfound.
  { intros Hne. destruct Hs as [?|[Hr Hp]]; [contradiction|].
    pose proof (Hl' r ltac:(lia) Hp) as Hle.
    destruct Hs' as [->|[Hr' Hp']].
    - lia.
    - pose proof (Hl r' ltac:(lia) Hp'). lia. }
  split; [|split].
  - destruct (Z.eq_dec r ULLONG_MAX) as [->|Hne].
    + now apply settled_below_sentinel with T n'.
    + rewrite (Hfound Hne). lia.
  - exact Hfound.
  - intros Hc. destruct (Z.eq_dec r ULLONG_MAX) as [Heq|Hne]; [|now apply Hfound].
    rewrite Heq in *. destruct Hs' as [->|[Hr' Hp']]; [reflexivity|].
    pose proof (passes_ceiling _ _ Hp') as Hc'.
    pose proof (Hl r' ltac:(lia) Hp') as Hle.
    lia.
Qed.

Lemma dispatch_done_fuel cuda_ok schedule T n_max fuel : forall n0 reg r,
  0 <= n0 -> n_max < modulus - CHUNK_SIZE ->
  dispatch cuda_ok schedule fuel T n_max n0 reg = Done r ->
  n_max + 1 - n0 <= Z.of_nat fuel * CHUNK_SIZE.
Proof.
  pose proof CHUNK_SIZE_eq as HC. pose proof modulus_eq as HM.
  induction fuel as [|fuel IH]; intros n0 reg r H0 Hn; cbn [dispatch];
    [discriminate|].
  rewrite Nat2Z.inj_succ.
  destruct (n0 <=? n_max) eqn:Hle.
  - apply Z.leb_le in Hle.
    unfold CUDA_CHECK. destruct (cuda_ok _); cbn [bind]; [|discriminate].
    intros H. apply IH in H; [|apply u64_range|assumption].
    unfold add in H. rewrite u64_small in H by lia. lia.
  - apply Z.leb_gt in Hle. intros _. lia.
Qed.

(** * Further theorems *)

(** X1 ([isqrt_uint64]).  For every 64-bit [n] the function returns at
    least the floor of the square root of [n]: the iteration comes down
    from above and the correction takes off at most one.  The result is
    the root exactly when its square does not exceed [n]. *)
Theorem isqrt_uint64_never_below_root (n : Z) :
  0 <= n < modulus ->
  Z.sqrt n <= isqrt_uint64 n
  /\ (isqrt_uint64 n = Z.sqrt n <-> isqrt_uint64 n * isqrt_uint64 n <= n).
Proof.
  intros Hn. split; [now apply isqrt_ge_sqrt|now apply isqrt_exact_iff].
Qed.

Lemma isqrt_uint64_never_below_root_witness :
  0 <= 196 < modulus /\ Z.sqrt 196 <= isqrt_uint64 196.
Proof.
  assert (0 <= 196 < modulus) as H by (rewrite modulus_eq; lia).
  split; [exact H|]. apply (isqrt_uint64_never_below_root 196 H).
Defined.

(** X2 ([isqrt_uint64]).  For every 64-bit [n >= 1] the four divisions
    [n / x] of the function have a divisor of at least 1 (indeed at least
    the root of [n]) and none of the three sums [x + n / x] wraps around
    [2^64]. *)
Theorem isqrt_uint64_divides_safely (n : Z) :
  1 <= n < modulus ->
  let x0 := isqrt_seed n in
  let x1 := newton_step n x0 in
  let x2 := newton_step n x1 in
  let x3 := newton_step n x2 in
  (1 <= Z.sqrt n <= x0 /\ Z.sqrt n <= x1 /\ Z.sqrt n <= x2 /\ Z.sqrt n <= x3)
  /\ x0 + n / x0 < modulus /\ x1 + n / x1 < modulus /\ x2 + n / x2 < modulus
  /\ x1 = (x0 + n / x0) / 2 /\ x2 = (x1 + n / x1) / 2
  /\ x3 = (x2 + n / x2) / 2.
Proof.
  intros Hn x0 x1 x2 x3.
  pose proof (isqrt_seed_bounds n Hn) as H0.
  pose proof (newton_step_bounds n _ Hn H0) as (W0 & E1 & L1 & _ & B1).
  pose proof (newton_step_bounds n _ Hn (conj L1 B1)) as (W1 & E2 & L2 & _ & B2).
  pose proof (newton_step_bounds n _ Hn (conj L2 B2)) as (W2 & E3 & L3 & _ & _).
  pose proof (sqrt_pos n ltac:(lia)) as Hs1.
  unfold x3, x2, x1, x0. repeat split; try assumption; lia.
Qed.

Lemma isqrt_uint64_divides_safely_witness :
  1 <= 196 < modulus
  /\ isqrt_seed 196 + 196 / isqrt_seed 196 < modulus.
Proof.
  assert (1 <= 196 < modulus) as H by (rewrite modulus_eq; lia).
  split; [exact H|].
  apply (isqrt_uint64_divides_safely 196 H).
Defined.

(** X3 (the test [y * y == candidate]).  For every candidate below
    [2^35] the test accepts exactly the perfect squares up to
    [144 = 12 * 12]: it has no false positive there, and it misses every
    square from [169] on. *)
Theorem verify_accepts_only_small_squares (n : Z) :
  0 <= n < 2 ^ 35 ->
  verify n = perfect_square n && (n <=? 144).
Proof. apply verify_below_2_35. Qed.

Lemma verify_accepts_only_small_squares_witness :
  0 <= 196 < 2 ^ 35 /\ verify 196 = perfect_square 196 && (196 <=? 144).
Proof.
  assert (0 <= 196 < 2 ^ 35) as H by (split; [lia|reflexivity]).
  split; [exact H|]. exact (verify_accepts_only_small_squares 196 H).
Defined.

(** X4 (the kernel past its guards).  For an index [eta >= 1] whose
    candidate [T + (2 * eta - 1)^2] is below [2^35], the worker writes
    [eta] to the register exactly when the candidate is a perfect square
    not above 144. *)
Theorem kernel_hit_characterised (T eta : Z) :
  0 <= T -> 1 <= eta -> T + (2 * eta - 1) ^ 2 < 2 ^ 35 ->
  (examine T eta = Hit eta
   <-> perfect_square (T + (2 * eta - 1) ^ 2) = true
       /\ T + (2 * eta - 1) ^ 2 <= 144).
Proof.
  intros HT He Hfit.
  rewrite <- passes_hit, passes_below_2_35 by assumption.
  rewrite andb_true_iff, Z.leb_le. reflexivity.
Qed.

Lemma kernel_hit_characterised_witness :
  examine 3 1 = Hit 1
  <-> perfect_square (3 + (2 * 1 - 1) ^ 2) = true /\ 3 + (2 * 1 - 1) ^ 2 <= 144.
Proof.
  apply (kernel_hit_characterised 3 1); [lia|lia|reflexivity].
Defined.

(** X5 (the search with [T >= 144]).  When [T >= 144] and the candidates
    of all indices up to [n_max] are below [2^35], a completed search
    returns [ULLONG_MAX], whatever the runtime and the order of the
    workers: every candidate exceeds 144 and the verification accepts
    none of them. *)
Theorem search_finds_nothing_from_T_144
  (cuda_ok : cuda_call -> bool) (schedule : Z -> Z -> list (Z * Z))
  (elapsed_ms : QArith_base.Q)
  (fuel : nat) (T n_max r : Z) (out : list line) :
  144 <= T -> 1 <= n_max -> T + (2 * n_max - 1) ^ 2 < 2 ^ 35 ->
  search_eta_chunked cuda_ok schedule elapsed_ms fuel T n_max
  = Done (r, out) ->
  r = ULLONG_MAX.
Proof.
  intros HT Hn Hfit Hs. apply search_done in Hs.
  apply dispatch_settled in Hs; [|now left].
  destruct Hs as [->|[Hr Hp]]; [reflexivity|]. exfalso.
  assert (0 <= (2 * r - 1) ^ 2 <= (2 * n_max - 1) ^ 2) as Hsq.
  { replace ((2 * r - 1) ^ 2) with ((2 * r - 1) * (2 * r - 1)) by ring.
    replace ((2 * n_max - 1) ^ 2) with ((2 * n_max - 1) * (2 * n_max - 1)) by ring.
    split; [apply Z.mul_nonneg_nonneg; lia|apply Z.mul_le_mono_nonneg; lia]. }
  rewrite passes_below_2_35 in Hp by lia.
  apply andb_true_iff in Hp as [_ Hle]. apply Z.leb_le in Hle.
  assert (1 <= (2 * r - 1) ^ 2).
  { replace ((2 * r - 1) ^ 2) with ((2 * r - 1) * (2 * r - 1)) by ring. nia. }
  lia.
Qed.

Lemma search_finds_nothing_from_T_144_witness :
  search_eta_chunked all_succeed in_grid_order half_ms 2 195 100
  = Done (ULLONG_MAX, timing_lines half_ms 100).
Proof.
  assert (search_eta_chunked all_succeed in_grid_order half_ms 2 195 100
          = Done (launch 195 1 100 (grid_workers 1) ULLONG_MAX,
                  timing_lines half_ms 100)) as Hs
    by reflexivity.
  assert (144 <= 195) as HT by lia.
  assert (1 <= 100) as Hn by lia.
  assert (195 + (2 * 100 - 1) ^ 2 < 2 ^ 35) as Hfit by reflexivity.
  pose proof (search_finds_nothing_from_T_144 all_succeed in_grid_order
                half_ms 2 195 100 _ _ HT Hn Hfit Hs) as Hr.
  rewrite Hs, Hr. reflexivity.
Defined.

(** X6 (the reduction across chunks).  The register after a sequence of
    kernel launches does not depend on the order of the launches, and
    launching every chunk a second time changes nothing: [atomicMin] is
    the only interaction between chunks. *)
Theorem chunks_in_any_order (T : Z) (cs cs' : list chunk) (reg : Z) :
  Permutation cs cs' ->
  run_chunks T cs reg = run_chunks T cs' reg
  /\ run_chunks T (cs ++ cs') reg = run_chunks T cs reg.
Proof.
  intros Hp. split; [now apply run_chunks_perm|].
  rewrite run_chunks_app.
  rewrite <- (run_chunks_perm T cs cs' Hp). apply run_chunks_idem.
Qed.

Lemma chunks_in_any_order_witness :
  run_chunks 3 [mkChunk 1 2 (grid_workers 1); mkChunk 3 4 (grid_workers 1)]
    ULLONG_MAX
  = run_chunks 3 [mkChunk 3 4 (grid_workers 1); mkChunk 1 2 (grid_workers 1)]
      ULLONG_MAX.
Proof.
  exact (proj1 (chunks_in_any_order 3
                  [mkChunk 1 2 (grid_workers 1); mkChunk 3 4 (grid_workers 1)]
                  [mkChunk 3 4 (grid_workers 1); mkChunk 1 2 (grid_workers 1)]
                  ULLONG_MAX
                  (perm_swap (mkChunk 3 4 (grid_workers 1))
                     (mkChunk 1 2 (grid_workers 1)) []))).
Defined.

(** X7 (the launch configuration).  For every chunk of the loop the grid
    has between 1 and [MAX_GRID_DIM = 65535] blocks and the chunk ends at
    or below [n_max]; while [n0 + CHUNK_SIZE - 1] does not wrap, the chunk
    is not empty, holds at most [CHUNK_SIZE] indices, and the grid has a
    worker for each index with fewer than [BLOCK_SIZE] workers to spare. *)
Theorem launch_grid_within_limits (n_max n0 : Z) :
  0 <= n0 <= n_max -> n_max < modulus ->
  1 <= chunk_grid n0 (chunk_end n_max n0) <= MAX_GRID_DIM
  /\ chunk_end n_max n0 <= n_max
  /\ (n0 + CHUNK_SIZE - 1 < modulus ->
      n0 <= chunk_end n_max n0
      /\ chunk_end n_max n0 - n0 + 1 <= CHUNK_SIZE
      /\ chunk_end n_max n0 - n0 + 1
         <= chunk_grid n0 (chunk_end n_max n0) * BLOCK_SIZE
         < chunk_end n_max n0 - n0 + 1 + BLOCK_SIZE).
Proof.
  intros H0 Hn. pose proof CHUNK_SIZE_eq as HC. pose proof modulus_eq as HM.
  assert (MAX_GRID_DIM = 65535) as HG by reflexivity.
  pose proof BLOCK_SIZE_eq as HB.
  destruct (Z.lt_ge_cases (n0 + CHUNK_SIZE - 1) modulus) as [Hw|Hw].
  - assert (chunk_end n_max n0 = Z.min (n0 + CHUNK_SIZE - 1) n_max) as He
      by (apply chunk_end_no_wrap; lia).
    rewrite He. set (n1 := Z.min (n0 + CHUNK_SIZE - 1) n_max).
    assert (n0 <= n1 /\ n1 <= n_max /\ n1 - n0 < CHUNK_SIZE) as (Ha & Hb & Hc)
      by (unfold n1; lia).
    rewrite chunk_grid_value by lia.
    pose proof (Z.div_mod (n1 - n0 + 256) 256 ltac:(lia)) as Hd.
    pose proof (Z.mod_pos_bound (n1 - n0 + 256) 256 ltac:(lia)) as Hm.
    repeat split; try lia.
  - pose proof (chunk_end_wrap n_max n0 H0 Hn Hw) as He.
    rewrite (chunk_grid_wrap n0 _ ltac:(lia) He ltac:(lia)).
    repeat split; try lia.
Qed.

Lemma launch_grid_within_limits_witness :
  1 <= chunk_grid 1 (chunk_end 10 1) <= MAX_GRID_DIM.
Proof.
  assert (0 <= 1 <= 10) as H0 by lia.
  assert (10 < modulus) as Hn by (rewrite modulus_eq; lia).
  exact (proj1 (launch_grid_within_limits 10 1 H0 Hn)).
Defined.

(** X8 (divergence of the dispatch loop).  For every [n_max] from
    [2^64 - 255] on, [search_eta_chunked] returns for no amount of fuel:
    the counter is always 1 modulo 256, hence never above [2^64 - 255]. *)
Theorem dispatch_loop_never_exits_from_top
  (cuda_ok : cuda_call -> bool) (schedule : Z -> Z -> list (Z * Z))
  (elapsed_ms : QArith_base.Q)
  (fuel : nat) (T n_max : Z) :
  modulus - 255 <= n_max ->
  is_done (search_eta_chunked cuda_ok schedule elapsed_ms fuel T n_max)
  = false.
Proof.
  intros Hn. unfold search_eta_chunked.
  repeat apply check_bind_not_done.
  apply bind_not_done, dispatch_never_exits_top;
    [assumption|rewrite modulus_eq; lia|reflexivity].
Qed.

Lemma dispatch_loop_never_exits_from_top_witness :
  is_done
    (search_eta_chunked all_succeed in_grid_order half_ms 3 3 (modulus - 255))
  = false.
Proof.
  exact (dispatch_loop_never_exits_from_top all_succeed in_grid_order half_ms
           3 3 (modulus - 255) (Z.le_refl (modulus - 255))).
Defined.

(** X9 (termination of the dispatch loop).  For every [n_max] from 1 to
    [2^64 - 256], with every runtime call succeeding, the search returns,
    and it returns the result of the exhaustive scan; past
    [2^64 - CHUNK_SIZE] it does so after the counter wrapped around. *)
Theorem search_completes_below_top
  (cuda_ok : cuda_call -> bool) (schedule : Z -> Z -> list (Z * Z))
  (elapsed_ms : QArith_base.Q)
  (T n_max : Z) :
  (forall call, cuda_ok call = true) ->
  (forall n0 grid, Permutation (schedule n0 grid) (grid_workers grid)) ->
  1 <= n_max <= modulus - 256 ->
  exists fuel,
    search_eta_chunked cuda_ok schedule elapsed_ms fuel T n_max
    = Done (sequential_scan T n_max, timing_lines elapsed_ms n_max).
Proof.
  intros Hok Hperm Hn.
  destruct (search_terminates cuda_ok schedule elapsed_ms Hok T n_max
              ltac:(lia)) as [r Hr].
  exists (S (Z.to_nat WRAP_PERIOD_STEPS)). rewrite Hr. do 2 f_equal.
  apply (search_partial cuda_ok schedule elapsed_ms Hperm T n_max) in Hr;
    [assumption|rewrite modulus_eq in *; lia].
Qed.

Lemma search_completes_below_top_witness :
  exists fuel,
    search_eta_chunked all_succeed in_grid_order half_ms fuel 3 (modulus - 256)
    = Done (sequential_scan 3 (modulus - 256),
            timing_lines half_ms (modulus - 256)).
Proof.
  assert (1 <= modulus - 256 <= modulus - 256) as Hn
    by (rewrite modulus_eq; lia).
  exact (search_completes_below_top all_succeed in_grid_order half_ms 3
           (modulus - 256) (fun call => eq_refl)
           (fun n0 grid => Permutation_refl _) Hn).
Defined.

(** X10 (number of iterations).  For [n_max] below [2^64 - CHUNK_SIZE],
    with every runtime call succeeding, the loop makes exactly
    [ceil (n_max / CHUNK_SIZE)] iterations: it is still running with that
    much fuel or less, and has returned with one more. *)
Theorem dispatch_iteration_count
  (cuda_ok : cuda_call -> bool) (schedule : Z -> Z -> list (Z * Z))
  (T n_max reg : Z) :
  (forall call, cuda_ok call = true) ->
  0 <= n_max < modulus - CHUNK_SIZE ->
  (forall fuel,
      (fuel <= Z.to_nat ((n_max + CHUNK_SIZE - 1) / CHUNK_SIZE))%nat ->
      dispatch cuda_ok schedule fuel T n_max 1 reg = Running)
  /\ exists r,
       dispatch cuda_ok schedule
         (S (Z.to_nat ((n_max + CHUNK_SIZE - 1) / CHUNK_SIZE))) T n_max 1 reg
       = Done r.
Proof.
  intros Hok Hn. pose proof CHUNK_SIZE_eq as HC.
  assert (0 <= (n_max + CHUNK_SIZE - 1) / CHUNK_SIZE) as Hk
    by (apply Z.div_pos; lia).
  pose proof (Z.mul_div_le (n_max + CHUNK_SIZE - 1) CHUNK_SIZE ltac:(lia)) as Hle.
  pose proof (Z.div_mod (n_max + CHUNK_SIZE - 1) CHUNK_SIZE ltac:(lia)) as Hd.
  pose proof (Z.mod_pos_bound (n_max + CHUNK_SIZE - 1) CHUNK_SIZE ltac:(lia)) as Hm.
  set (k := (n_max + CHUNK_SIZE - 1) / CHUNK_SIZE) in *.
  split.
  - intros fuel Hf. apply dispatch_running; [assumption|lia|lia|].
    assert (Z.of_nat fuel <= k) as Hfk by lia.
    assert (Z.of_nat fuel * CHUNK_SIZE <= k * CHUNK_SIZE)
      by (apply Z.mul_le_mono_nonneg_r; lia).
    lia.
  - apply dispatch_finishes; [assumption|lia|lia|].
    rewrite Z2Nat.id by lia. lia.
Qed.

Lemma dispatch_iteration_count_witness :
  dispatch all_succeed in_grid_order
    (Z.to_nat ((10 + CHUNK_SIZE - 1) / CHUNK_SIZE)) 3 10 1 ULLONG_MAX
  = Running.
Proof.
  assert (0 <= 10 < modulus - CHUNK_SIZE) as Hn
    by (rewrite modulus_eq, CHUNK_SIZE_eq; lia).
  exact (proj1 (dispatch_iteration_count all_succeed in_grid_order 3 10
                  ULLONG_MAX (fun call => eq_refl) Hn)
           _ (le_n _)).
Defined.

(** X11 (the result as [n_max] grows).  Of two completed searches for the
    same [T], the one with the larger [n_max] returns at most the result
    of the other; it returns the same index when the smaller search found
    one, and the same value altogether when the smaller [n_max] is already
    at the ceiling [1518500249]. *)
Theorem result_stable_as_n_max_grows
  (cuda_ok cuda_ok' : cuda_call -> bool)
  (schedule schedule' : Z -> Z -> list (Z * Z))
  (elapsed_ms elapsed_ms' : QArith_base.Q)
  (fuel fuel' : nat) (T n_max n_max' r r' : Z) (out out' : list line) :
  (forall n0 grid, Permutation (schedule n0 grid) (grid_workers grid)) ->
  (forall n0 grid, Permutation (schedule' n0 grid) (grid_workers grid)) ->
  0 <= n_max <= n_max' -> n_max' < modulus ->
  search_eta_chunked cuda_ok schedule elapsed_ms fuel T n_max
  = Done (r, out) ->
  search_eta_chunked cuda_ok' schedule' elapsed_ms' fuel' T n_max'
  = Done (r', out') ->
  r' <= r
  /\ (r <> ULLONG_MAX -> r' = r)
  /\ (ETA_CEILING <= n_max -> r' = r).
Proof.
  intros Hp Hp' Hn Hn' Hs Hs'.
  apply (search_partial cuda_ok schedule elapsed_ms Hp T n_max ltac:(lia))
    in Hs.
  apply (search_partial cuda_ok' schedule' elapsed_ms' Hp' T n_max'
           ltac:(lia)) in Hs'.
  subst r r'. now apply scan_monotone.
Qed.

Lemma result_stable_as_n_max_grows_witness :
  1 <= 1 /\ (1 <> ULLONG_MAX -> 1 = 1) /\ (ETA_CEILING <= 10 -> 1 = 1).
Proof.
  assert (0 <= 10 <= 20) as Hn by lia.
  assert (20 < modulus) as Hn' by (rewrite modulus_eq; lia).
  assert (search_eta_chunked all_succeed in_grid_order half_ms 2 3 10
          = Done (1, timing_lines half_ms 10)) as Hs
    by (vm_compute; reflexivity).
  assert (search_eta_chunked all_succeed in_grid_order half_ms 2 3 20
          = Done (1, timing_lines half_ms 20)) as Hs'
    by (vm_compute; reflexivity).
  exact (result_stable_as_n_max_grows all_succeed all_succeed
           in_grid_order in_grid_order half_ms half_ms 2 2 3 10 20 1 1 _ _
           (fun n0 grid => Permutation_refl _)
           (fun n0 grid => Permutation_refl _) Hn Hn' Hs Hs').
Defined.

(** X12 (the report of [main]).  When [main] runs the search and
    returns, its output is the header, the congruence warning exactly when
    [T mod 4 <> 3], the device line, the computation time followed by the
    throughput exactly when the time exceeds [0.1f], then either the line
    "no eta" (result [ULLONG_MAX]) or the found index with
    [|p - q| = 4 * eta - 2], and the reproducibility lines; a found index
    lies in [1 .. min (n_max, 1518500249)], so [4 * eta - 2] is computed
    without wrap-around and is at most 6074000994. *)
Theorem main_report_consistent
  (cuda_ok : cuda_call -> bool) (schedule : Z -> Z -> list (Z * Z))
  (elapsed_ms : QArith_base.Q)
  (strtoull : string -> Z) (fuel : nat) (argv : list string)
  (e : exit_state) :
  List.length argv = 3%nat ->
  strtoull (nth 2 argv EmptyString) <> 0 ->
  main cuda_ok schedule elapsed_ms strtoull fuel argv = Done e ->
  exists r,
    searched e = Some r
    /\ stdout e
       = [Banner;
          EchoT (strtoull (nth 1 argv EmptyString))
            (strtoull (nth 1 argv EmptyString) mod 4);
          EchoNMax (strtoull (nth 2 argv EmptyString))]
         ++ (if strtoull (nth 1 argv EmptyString) mod 4 =? 3 then []
             else [CongruenceWarning])
         ++ [Device]
         ++ [ComputationTime elapsed_ms]
         ++ (if above_tenth elapsed_ms
             then [Throughput (strtoull (nth 2 argv EmptyString)) elapsed_ms]
             else [])
         ++ (if r =? ULLONG_MAX
             then [NoneFound (strtoull (nth 2 argv EmptyString))]
             else [Found r; Difference (4 * r - 2)])
         ++ [Meta (strtoull (nth 1 argv EmptyString))
               (strtoull (nth 2 argv EmptyString))]
    /\ (r <> ULLONG_MAX ->
        1 <= r <= Z.min (strtoull (nth 2 argv EmptyString)) ETA_CEILING
        /\ passes (strtoull (nth 1 argv EmptyString)) r = true
        /\ 2 <= 4 * r - 2 <= 6074000994).
Proof.
  intros Hlen Hnz. rewrite main_other_case by assumption.
  set (T := strtoull (nth 1 argv EmptyString)).
  set (n_max := strtoull (nth 2 argv EmptyString)).
  destruct (search_eta_chunked cuda_ok schedule elapsed_ms fuel T n_max)
    as [[r out]| |] eqn:Es; cbn [bind]; try discriminate.
  intros [= <-]. exists r. cbn [searched stdout fst snd].
  pose proof (search_printed _ _ _ _ _ _ _ _ Es) as ->.
  assert (r <> ULLONG_MAX ->
          1 <= r <= Z.min n_max ETA_CEILING /\ passes T r = true) as Hfound.
  { intros Hne. apply search_done in Es.
    apply dispatch_settled in Es; [|now left].
    destruct Es as [?|[Hr Hp]]; [contradiction|].
    pose proof (passes_ceiling _ _ Hp). split; [lia|assumption]. }
  split; [reflexivity|]. split.
  - assert ((if r =? ULLONG_MAX then [NoneFound n_max]
             else [Found r; Difference (sub (mul 4 r) 2)])
            = (if r =? ULLONG_MAX then [NoneFound n_max]
               else [Found r; Difference (4 * r - 2)])) as ->.
    { destruct (r =? ULLONG_MAX) eqn:Er; [reflexivity|].
      apply Z.eqb_neq in Er. destruct (Hfound Er) as [Hr _].
      rewrite ETA_CEILING_eq in Hr.
      replace (sub (mul 4 r) 2) with (4 * r - 2); [reflexivity|].
      unfold sub, mul.
      rewrite (u64_small (4 * r)) by (rewrite modulus_eq; lia).
      rewrite u64_small by (rewrite modulus_eq; lia). reflexivity. }
    unfold timing_lines.
    destruct (T mod 4 =? 3); cbn [negb app]; reflexivity.
  - intros Hne. destruct (Hfound Hne) as [Hr Hp].
    split; [assumption|]. split; [assumption|].
    rewrite ETA_CEILING_eq in Hr. lia.
Qed.

Lemma main_report_consistent_witness :
  exists r,
    searched (mkExit 0 []
                [Banner; EchoT 3 3; EchoNMax 10; Device;
                 ComputationTime half_ms; Throughput 10 half_ms;
                 Found 1; Difference 2; Meta 3 10] (Some 1)) = Some r.
Proof.
  assert (main all_succeed in_grid_order half_ms (read_decimal 0) 2
            ["eta_congruent_gpu"; "3"; "10"]%string
          = Done (mkExit 0 []
                    [Banner; EchoT 3 3; EchoNMax 10; Device;
                     ComputationTime half_ms; Throughput 10 half_ms;
                     Found 1; Difference 2; Meta 3 10] (Some 1))) as Hm
    by (vm_compute; reflexivity).
  assert (read_decimal 0 (nth 2 ["eta_congruent_gpu"; "3"; "10"]%string
                            EmptyString) <> 0) as Hnz
    by (vm_compute; discriminate).
  destruct (main_report_consistent all_succeed in_grid_order half_ms
              (read_decimal 0)
              2 ["eta_congruent_gpu"; "3"; "10"]%string _ eq_refl Hnz Hm)
    as (r & Hr & _).
  exists r. exact Hr.
Defined.

(** X13 (the safety ceiling).  For every index from 1 to the ceiling
    [1518500249] the values [d = 2 * eta - 1] and [d2 = d * d] are
    computed without wrap-around and [d2] is below [2^63]; hence for every
    [T] up to [2^63] no such index is skipped by the overflow guard: the
    worker runs the residue filter. *)
Theorem ceiling_keeps_arithmetic_exact (T eta : Z) :
  1 <= eta <= ETA_CEILING -> 0 <= T <= 2 ^ 63 ->
  sub (mul 2 eta) 1 = 2 * eta - 1
  /\ mul (sub (mul 2 eta) 1) (sub (mul 2 eta) 1) = (2 * eta - 1) ^ 2
  /\ (2 * eta - 1) ^ 2 < 2 ^ 63
  /\ evaluated (examine T eta) = true.
Proof.
  intros He HT. destruct (odd_square_exact eta He) as (Hd & Hd2 & Hb).
  split; [assumption|]. split; [assumption|]. split; [assumption|].
  change (2 ^ 63) with 9223372036854775808 in *.
  rewrite examine_past_guards by (rewrite ?modulus_eq; lia).
  destruct (first_reject _ _ _); [reflexivity|].
  destruct (verify _); reflexivity.
Qed.

Lemma ceiling_keeps_arithmetic_exact_witness :
  evaluated (examine (2 ^ 63) ETA_CEILING) = true.
Proof.
  assert (1 <= ETA_CEILING <= ETA_CEILING) as He
    by (rewrite ETA_CEILING_eq; lia).
  assert (0 <= 2 ^ 63 <= 2 ^ 63) as HT by lia.
  exact (proj2 (proj2 (proj2
           (ceiling_keeps_arithmetic_exact (2 ^ 63) ETA_CEILING He HT)))).
Defined.

(** X14 ([is_qr_mod] on another modulus).  For a positive modulus that
    is not one of the nine of the kernel the function ends in the
    [default] case: it accepts exactly the multiples of the modulus. *)
Theorem is_qr_mod_unsupported_modulus (v m : Z) :
  0 < m < modulus -> ~ In m Q ->
  is_qr_mod v m = (v mod m =? 0).
Proof.
  intros Hm Hq. unfold is_qr_mod. rewrite u64_small by lia.
  destruct (v mod m =? 0); [reflexivity|].
  unfold Q in Hq. cbn [In] in Hq.
  repeat (match goal with
          | |- context [m =? ?c] =>
              replace (m =? c) with false
                by (symmetry; apply Z.eqb_neq; intros ->; apply Hq; tauto)
          end).
  reflexivity.
Qed.

Lemma is_qr_mod_unsupported_modulus_witness :
  is_qr_mod 8 4 = (8 mod 4 =? 0).
Proof.
  assert (0 < 4 < modulus) as Hm by (rewrite modulus_eq; lia).
  assert (~ In 4 Q) as Hq
    by (unfold Q; cbn [In]; intros H;
        repeat (destruct H as [H|H]; [discriminate H|]); exact H).
  exact (is_qr_mod_unsupported_modulus 8 4 Hm Hq).
Defined.

(** X15 (the chunks of the loop).  For [n_max] from 1 up to below
    [2^64 - CHUNK_SIZE], when the loop has returned its launches
    [n0 .. n1] cut [1 .. n_max] into consecutive non-empty chunks, each
    launched with a worker for every one of its indices, and the value
    returned is the register after these launches in turn. *)
Theorem loop_chunks_tile_range
  (cuda_ok : cuda_call -> bool) (schedule : Z -> Z -> list (Z * Z))
  (fuel : nat) (T n_max reg r : Z) :
  (forall n0 grid, Permutation (schedule n0 grid) (grid_workers grid)) ->
  1 <= n_max < modulus - CHUNK_SIZE ->
  dispatch cuda_ok schedule fuel T n_max 1 reg = Done r ->
  partition 1 n_max (loop_chunks schedule fuel n_max 1)
  /\ r = run_chunks T (loop_chunks schedule fuel n_max 1) reg.
Proof.
  intros Hperm Hn Hd. split.
  - apply loop_chunks_partition; [assumption|lia|lia|].
    assert (0 <= 1) as H1 by lia.
    assert (n_max < modulus - CHUNK_SIZE) as Hlt by lia.
    pose proof (dispatch_done_fuel cuda_ok schedule T n_max fuel 1 reg r
                  H1 Hlt Hd) as Hf.
    lia.
  - now apply dispatch_as_chunks with cuda_ok.
Qed.

Lemma loop_chunks_tile_range_witness :
  partition 1 10 (loop_chunks in_grid_order 2 10 1).
Proof.
  assert (1 <= 10 < modulus - CHUNK_SIZE) as Hn
    by (rewrite modulus_eq, CHUNK_SIZE_eq; lia).
  assert (dispatch all_succeed in_grid_order 2 3 10 1 ULLONG_MAX
          = Done 1) as Hd by (vm_compute; reflexivity).
  exact (proj1 (loop_chunks_tile_range all_succeed in_grid_order 2 3 10
                  ULLONG_MAX 1 (fun n0 grid => Permutation_refl _) Hn Hd)).
Defined.
